(** * Reconciliation engine of port_ocean: the HTTP entities state applier
    and the Kafka ingestion loop.

    The development embeds
    - [port_ocean/core/handlers/entities_state_applier/port/applier.py]
      (class [HttpEntitiesStateApplier]: [_safe_delete], [apply_diff],
      [delete_diff], [upsert], [delete]) and
    - [port_ocean/consumers/kafka_consumer.py] (class [KafkaConsumer]:
      [_handle_message], [start], [exit_gracefully])
    as executable definitions.  Both are programs over collaborators (the
    remote store client, the Kafka consumer, the message callback); they are
    written in a small monad that threads the state of the collaborators,
    propagates Python exceptions and records every call that is issued.
    Calls to [logger] have no effect on the modelled state: the applier leaves
    them out, the ingestion loop records the lines that report a processing
    attempt. *)

From Stdlib Require Import String List Bool Arith Permutation.
From stdpp Require Import base list gmap strings.
Import ListNotations.
Local Open Scope string_scope.
Local Open Scope list_scope.

(** * Data model *)

(** Modelled from the spec: the class [Entity] of [port_ocean.core.models] is
    not among the sources.  The fields are the ones of section 3 of the
    specification; [is_using_search_identifier] is the attribute read by
    [upsert]. *)
Module Entity.
Record t : Type := mk {
  identifier : string;
  blueprint : string;
  relations : list (string * list string);
  properties : list (string * string);
  is_using_search_identifier : bool
}.
End Entity.

(** Modelled from the spec: the class [EntityRef] of [port_ocean.core.models]
    is not among the sources; it is the [(identifier, blueprint)] projection
    of an entity, and [from_entity] is [EntityRef.from_entity]. *)
Module EntityRef.
Record t : Type := mk {
  identifier : string;
  blueprint : string
}.

Definition from_entity (entity : Entity.t) : t :=
  {| identifier := Entity.identifier entity;
     blueprint := Entity.blueprint entity |}.
End EntityRef.

(** Modelled from the spec: [is_same_entity] of [port_ocean.core.utils] is not
    among the sources; two references match by identity when their identity
    keys [(identifier, blueprint)] are equal. *)
Definition is_same_entity (first_entity second_entity : EntityRef.t) : bool :=
  String.eqb (EntityRef.identifier first_entity)
             (EntityRef.identifier second_entity)
  && String.eqb (EntityRef.blueprint first_entity)
                (EntityRef.blueprint second_entity).

(** The result of [get_port_diff] and [get_port_ref_diff]: the three buckets
    that [apply_diff] and [delete_diff] read. *)
Record EntityPortDiff (A : Type) : Type := mkDiff {
  created : list A;
  modified : list A;
  deleted : list A
}.
Arguments mkDiff {A} _ _ _.
Arguments created {A} _.
Arguments modified {A} _.
Arguments deleted {A} _.

(** [EntityDiff] and [EntityRefDiff] of [port_ocean/core/ocean_types.py]. *)
Record EntityDiff : Type := mkEntityDiff {
  before : list Entity.t;
  after : list Entity.t
}.

Record EntityRefDiff : Type := mkEntityRefDiff {
  ref_before : list EntityRef.t;
  ref_after : list EntityRef.t
}.

(** Modelled from the spec: [get_port_diff] and [get_port_ref_diff] of
    [port_ocean.core.utils] are not among the sources.  Section 4.1: [created]
    are the items of [after] whose key is absent from [before], [modified] the
    items of [after] whose key is present in [before], [deleted] the items of
    [before] whose key is absent from [after], each in the order of its source
    collection.  The applier below takes the two functions as parameters;
    these instances serve the concrete scenarios. *)
Definition spec_port_diff {A : Type} (key : A -> EntityRef.t)
    (before after : list A) : EntityPortDiff A :=
  let known (l : list A) (x : A) :=
    existsb (fun y => is_same_entity (key y) (key x)) l in
  {| created := List.filter (fun x => negb (known before x)) after;
     modified := List.filter (known before) after;
     deleted := List.filter (fun x => negb (known after x)) before |}.

Definition spec_get_port_diff := spec_port_diff EntityRef.from_entity.
Definition spec_get_port_ref_diff := spec_port_diff (fun r : EntityRef.t => r).

(** * The deletion guard, pure part

    The loop of [_safe_delete] (lines 41-61) decides, candidate by candidate,
    what is appended to [allowed_entities_to_delete]. *)

Definition is_part_of_related (related_entities_refs : list EntityRef.t)
    (entity_to_delete : EntityRef.t) : bool :=
  existsb (fun entity => is_same_entity entity entity_to_delete)
          related_entities_refs.

Definition is_part_of_created (entities_to_protect : list EntityRef.t)
    (entity_to_delete : EntityRef.t) : bool :=
  existsb (fun entity => is_same_entity entity entity_to_delete)
          entities_to_protect.

(** One iteration of the loop body: the new value of the accumulator. *)
Definition safe_delete_step (create_missing_related_entities : bool)
    (entities_to_protect related_entities_refs : list EntityRef.t)
    (allowed_entities_to_delete : list EntityRef.t)
    (entity_to_delete : EntityRef.t) : list EntityRef.t :=
  if is_part_of_related related_entities_refs entity_to_delete then
    if create_missing_related_entities then allowed_entities_to_delete
    else allowed_entities_to_delete ++ [entity_to_delete]
  else if negb (is_part_of_created entities_to_protect entity_to_delete) then
    allowed_entities_to_delete ++ [entity_to_delete]
  else allowed_entities_to_delete.

Definition allowed_entities_to_delete (create_missing_related_entities : bool)
    (entities_to_delete entities_to_protect related_entities_refs
       : list EntityRef.t) : list EntityRef.t :=
  fold_left
    (safe_delete_step create_missing_related_entities entities_to_protect
       related_entities_refs)
    entities_to_delete [].

(** The decision taken for one candidate, read off the branches of the loop
    body. *)
Definition guard_passes (create_missing_related_entities : bool)
    (entities_to_protect related_entities_refs : list EntityRef.t)
    (entity_to_delete : EntityRef.t) : bool :=
  if is_part_of_related related_entities_refs entity_to_delete then
    negb create_missing_related_entities
  else negb (is_part_of_created entities_to_protect entity_to_delete).

(** The decision as section 4.3 of the specification words it: delete iff the
    candidate is not in [keep] and (it is not related to [keep] or the policy
    is disabled).  Kept apart from [guard_passes] to compare the two. *)
Definition guard_as_specified (create_missing_related_entities : bool)
    (entities_to_protect related_entities_refs : list EntityRef.t)
    (entity_to_delete : EntityRef.t) : bool :=
  negb (is_part_of_created entities_to_protect entity_to_delete)
  && (negb (is_part_of_related related_entities_refs entity_to_delete)
      || negb create_missing_related_entities).

(** The guard as section 4.3 states it, for one run of the loop: a candidate
    is passed on to [delete] iff the specified decision says so. *)
Definition deletion_guard_as_specified (create_missing_related_entities : bool)
    (entities_to_delete entities_to_protect related_entities_refs
       : list EntityRef.t) : Prop :=
  forall E : EntityRef.t,
    In E (allowed_entities_to_delete create_missing_related_entities
            entities_to_delete entities_to_protect related_entities_refs)
    <-> In E entities_to_delete
        /\ guard_as_specified create_missing_related_entities
             entities_to_protect related_entities_refs E = true.

(** Two placements of the search-identifier entities in a sequence of
    writes: all of them ahead of the others, or all of them behind. *)
Definition search_identifier_first (writes : list Entity.t) : Prop :=
  exists searched others,
    writes = searched ++ others
    /\ Forall (fun e => Entity.is_using_search_identifier e = true) searched
    /\ Forall (fun e => Entity.is_using_search_identifier e = false) others.

Definition search_identifier_last (writes : list Entity.t) : Prop :=
  exists others searched,
    writes = others ++ searched
    /\ Forall (fun e => Entity.is_using_search_identifier e = false) others
    /\ Forall (fun e => Entity.is_using_search_identifier e = true) searched.

(** * Effects: remote calls, exceptions and the trace of calls

    A Python coroutine of the applier becomes a function of the state of the
    remote world.  It yields what the coroutine returns or the exception it
    raises, the new state of the world, and the remote calls it issued, in the
    order it issued them. *)

Definition Exn : Type := string.

Inductive outcome (A : Type) : Type :=
| Returned (a : A)
| Raised (e : Exn).
Arguments Returned {A} _.
Arguments Raised {A} _.

Definition M (W C A : Type) : Type := W -> outcome A * W * list C.

Definition ret {W C A : Type} (a : A) : M W C A :=
  fun w => (Returned a, w, []).

Definition raise {W C A : Type} (e : Exn) : M W C A :=
  fun w => (Raised e, w, []).

Definition bind {W C A B : Type} (m : M W C A) (k : A -> M W C B) : M W C B :=
  fun w =>
    match m w with
    | (Returned a, w', t) =>
        match k a w' with
        | (r, w'', t') => (r, w'', t ++ t')
        end
    | (Raised e, w', t) => (Raised e, w', t)
    end.

(** One call to a collaborator: the call is recorded, its answer returned. *)
Definition remote {W C A : Type} (c : C) (op : W -> outcome A * W) : M W C A :=
  fun w => match op w with (r, w') => (r, w', [c]) end.

Notation "x <- m ;; k" := (bind m (fun x => k))
  (at level 100, m at next level, right associativity).
Notation "m ;;; k" := (bind m (fun _ => k))
  (at level 100, right associativity).

(** [try: body except Exception as e: handler e]. *)
Definition try_except {W C A : Type} (body : M W C A)
    (handler : Exn -> M W C A) : M W C A :=
  fun w =>
    match body w with
    | (Returned a, w', t) => (Returned a, w', t)
    | (Raised e, w', t) =>
        match handler e w' with
        | (r, w'', t') => (r, w'', t ++ t')
        end
    end.

(** [try: body finally: final]: [final] runs whatever [body] did; what it
    raises replaces the outcome of [body]. *)
Definition try_finally {W C A : Type} (body : M W C A)
    (final : M W C unit) : M W C A :=
  fun w =>
    match body w with
    | (r, w', t) =>
        match final w' with
        | (Returned _, w'', t') => (r, w'', t ++ t')
        | (Raised e, w'', t') => (Raised e, w'', t ++ t')
        end
    end.

(** A call whose record shows the answer, and a record without a call (a log
    line). *)
Definition observe {W C A : Type} (c : outcome A -> C)
    (op : W -> outcome A * W) : M W C A :=
  fun w => match op w with (r, w') => (r, w', [c r]) end.

Definition emit {W C : Type} (c : C) : M W C unit :=
  fun w => (Returned tt, w, [c]).

Definition result_of {A W C : Type} (r : outcome A * W * list C) : outcome A :=
  fst (fst r).
Definition world_of {A W C : Type} (r : outcome A * W * list C) : W :=
  snd (fst r).
Definition calls_of {A W C : Type} (r : outcome A * W * list C) : list C :=
  snd r.

(** * The collaborators of the applier *)

(** The remote store client [self.context.port_client].  Its class is not among
    the sources; the four methods are the ones the applier calls, with the
    arguments it passes.  A method answers from the state of the remote world,
    may change it, and may raise. *)
Record PortClient (World RequestOptions UserAgentType : Type) : Type := {
  batch_upsert_entities :
    list Entity.t -> RequestOptions -> UserAgentType -> bool ->
    World -> outcome (list Entity.t) * World;
  upsert_entity :
    Entity.t -> RequestOptions -> UserAgentType -> bool ->
    World -> outcome (option Entity.t) * World;
  batch_delete_entities :
    list EntityRef.t -> RequestOptions -> UserAgentType -> bool ->
    World -> outcome unit * World;
  delete_entity :
    EntityRef.t -> RequestOptions -> UserAgentType -> bool ->
    World -> outcome unit * World
}.
Arguments batch_upsert_entities {World RequestOptions UserAgentType} _.
Arguments upsert_entity {World RequestOptions UserAgentType} _.
Arguments batch_delete_entities {World RequestOptions UserAgentType} _.
Arguments delete_entity {World RequestOptions UserAgentType} _.

(** The configuration [event.port_app_config], as far as the applier reads
    it. *)
Record PortAppConfig (RequestOptions : Type) : Type := {
  create_missing_related_entities : bool;
  delete_dependent_entities : bool;
  get_port_request_options : RequestOptions
}.
Arguments create_missing_related_entities {RequestOptions} _.
Arguments delete_dependent_entities {RequestOptions} _.
Arguments get_port_request_options {RequestOptions} _.

(** The calls the applier issues, with their arguments; the last argument of
    the first four is the keyword argument [should_raise]. *)
Inductive Call (RequestOptions UserAgentType : Type) : Type :=
| CallBatchUpsertEntities (entities : list Entity.t)
    (request_options : RequestOptions) (user_agent_type : UserAgentType)
    (should_raise : bool)
| CallUpsertEntity (entity : Entity.t)
    (request_options : RequestOptions) (user_agent_type : UserAgentType)
    (should_raise : bool)
| CallBatchDeleteEntities (entities_refs : list EntityRef.t)
    (request_options : RequestOptions) (user_agent_type : UserAgentType)
    (should_raise : bool)
| CallDeleteEntity (entity_ref : EntityRef.t)
    (request_options : RequestOptions) (user_agent_type : UserAgentType)
    (should_raise : bool)
| CallGetRelatedEntitiesRefs (entities : list EntityRef.t).
Arguments CallBatchUpsertEntities {RequestOptions UserAgentType} _ _ _ _.
Arguments CallUpsertEntity {RequestOptions UserAgentType} _ _ _ _.
Arguments CallBatchDeleteEntities {RequestOptions UserAgentType} _ _ _ _.
Arguments CallDeleteEntity {RequestOptions UserAgentType} _ _ _ _.
Arguments CallGetRelatedEntitiesRefs {RequestOptions UserAgentType} _.

(** The value of [should_raise] a call carries, when it has one. *)
Definition should_raise_of {RequestOptions UserAgentType : Type}
    (c : Call RequestOptions UserAgentType) : option bool :=
  match c with
  | CallBatchUpsertEntities _ _ _ b => Some b
  | CallUpsertEntity _ _ _ b => Some b
  | CallBatchDeleteEntities _ _ _ b => Some b
  | CallDeleteEntity _ _ _ b => Some b
  | CallGetRelatedEntitiesRefs _ => None
  end.

Definition fault_tolerant {RequestOptions UserAgentType : Type}
    (c : Call RequestOptions UserAgentType) : Prop :=
  should_raise_of c <> Some true.

Definition is_delete_call {RequestOptions UserAgentType : Type}
    (c : Call RequestOptions UserAgentType) : bool :=
  match c with
  | CallBatchDeleteEntities _ _ _ _ | CallDeleteEntity _ _ _ _ => true
  | _ => false
  end.

Definition is_lookup_call {RequestOptions UserAgentType : Type}
    (c : Call RequestOptions UserAgentType) : bool :=
  match c with
  | CallGetRelatedEntitiesRefs _ => true
  | _ => false
  end.

(** The contract of the client for [should_raise=False] (section 6 of the
    specification: not raised when fault tolerant).  The applier is not
    defined in terms of it; the statements that need it assume it. *)
Definition never_raises {A W : Type} (op : W -> outcome A * W) : Prop :=
  forall w : W, exists a : A, fst (op w) = Returned a.

Definition honours_should_raise {World RequestOptions UserAgentType : Type}
    (client : PortClient World RequestOptions UserAgentType) : Prop :=
  (forall entities o u,
      never_raises (batch_upsert_entities client entities o u false))
  /\ (forall entity o u, never_raises (upsert_entity client entity o u false))
  /\ (forall refs o u,
        never_raises (batch_delete_entities client refs o u false))
  /\ (forall ref o u, never_raises (delete_entity client ref o u false)).

(** The entities of the per-entity write calls of a trace, in call order. *)
Fixpoint upserted_one_by_one {RequestOptions UserAgentType : Type}
    (calls : list (Call RequestOptions UserAgentType)) : list Entity.t :=
  match calls with
  | [] => []
  | CallUpsertEntity entity _ _ _ :: rest => entity :: upserted_one_by_one rest
  | _ :: rest => upserted_one_by_one rest
  end.

(** More readings of a trace: the write calls, the references the delete
    calls name, and the request options and user agent a call carries. *)
Definition is_write_call {RequestOptions UserAgentType : Type}
    (c : Call RequestOptions UserAgentType) : bool :=
  match c with
  | CallBatchUpsertEntities _ _ _ _ | CallUpsertEntity _ _ _ _ => true
  | _ => false
  end.

Definition deleted_refs_of {RequestOptions UserAgentType : Type}
    (calls : list (Call RequestOptions UserAgentType)) : list EntityRef.t :=
  flat_map
    (fun c =>
       match c with
       | CallBatchDeleteEntities entities_refs _ _ _ => entities_refs
       | CallDeleteEntity entity_ref _ _ _ => [entity_ref]
       | _ => []
       end)
    calls.

Definition provenance_of {RequestOptions UserAgentType : Type}
    (c : Call RequestOptions UserAgentType)
    : option (RequestOptions * UserAgentType) :=
  match c with
  | CallBatchUpsertEntities _ o u _ | CallUpsertEntity _ o u _
  | CallBatchDeleteEntities _ o u _ | CallDeleteEntity _ o u _ => Some (o, u)
  | CallGetRelatedEntitiesRefs _ => None
  end.

(** * The applier: [HttpEntitiesStateApplier] *)

Section Applier.

Context {World RequestOptions UserAgentType : Type}.

(** [self.context.port_client] and [event.port_app_config]. *)
Variable port_client : PortClient World RequestOptions UserAgentType.
Variable port_app_config : PortAppConfig RequestOptions.

(** [get_related_entities_refs (entities_to_protect, port_client)]: the module
    is not among the sources.  It queries the remote store for the entities
    the protected ones are related to; it is taken as one remote operation,
    already applied to the client. *)
Variable get_related_entities_refs :
  list EntityRef.t -> World -> outcome (list EntityRef.t) * World.

(** [order_by_entities_dependencies] and [order_by_entities_ref_dependencies]:
    the module is not among the sources; the two orderers are parameters. *)
Variable order_by_entities_dependencies : list Entity.t -> list Entity.t.
Variable order_by_entities_ref_dependencies :
  list EntityRef.t -> list EntityRef.t.

(** [get_port_diff] and [get_port_ref_diff] of [port_ocean.core.utils]. *)
Variable get_port_diff :
  list Entity.t -> list Entity.t -> EntityPortDiff Entity.t.
Variable get_port_ref_diff :
  list EntityRef.t -> list EntityRef.t -> EntityPortDiff EntityRef.t.

Local Abbreviation Task := (M World (Call RequestOptions UserAgentType)).

(** The loop of [delete], lines 153-159. *)
Fixpoint delete_each (ordered_deleted_entities_refs : list EntityRef.t)
    (user_agent_type : UserAgentType) : Task unit :=
  match ordered_deleted_entities_refs with
  | [] => ret tt
  | entity_ref :: rest =>
      remote
        (CallDeleteEntity entity_ref
           (get_port_request_options port_app_config) user_agent_type false)
        (delete_entity port_client entity_ref
           (get_port_request_options port_app_config) user_agent_type false)
      ;;; delete_each rest user_agent_type
  end.

(** [delete], lines 137-159. *)
Definition delete (entities_refs : list EntityRef.t)
    (user_agent_type : UserAgentType) : Task unit :=
  if delete_dependent_entities port_app_config then
    remote
      (CallBatchDeleteEntities entities_refs
         (get_port_request_options port_app_config) user_agent_type false)
      (batch_delete_entities port_client entities_refs
         (get_port_request_options port_app_config) user_agent_type false)
  else
    let ordered_deleted_entities_refs :=
      order_by_entities_ref_dependencies entities_refs in
    delete_each ordered_deleted_entities_refs user_agent_type.

(** The partition loop of [upsert], lines 114-120: the pair of
    [entities_with_search_identifier] and
    [entities_without_search_identifier]. *)
Definition partition_step (acc : list Entity.t * list Entity.t)
    (entity : Entity.t) : list Entity.t * list Entity.t :=
  if Entity.is_using_search_identifier entity
  then (fst acc ++ [entity], snd acc)
  else (fst acc, snd acc ++ [entity]).

Definition partition_by_search_identifier (entities : list Entity.t)
    : list Entity.t * list Entity.t :=
  fold_left partition_step entities ([], []).

(** The write loop of [upsert], lines 126-134; [modified_entities] is the
    accumulator. *)
Fixpoint upsert_each (ordered_created_entities : list Entity.t)
    (user_agent_type : UserAgentType) (modified_entities : list Entity.t)
    : Task (list Entity.t) :=
  match ordered_created_entities with
  | [] => ret modified_entities
  | entity :: rest =>
      upsertedEntity <-
        remote
          (CallUpsertEntity entity
             (get_port_request_options port_app_config) user_agent_type false)
          (upsert_entity port_client entity
             (get_port_request_options port_app_config) user_agent_type false)
      ;;
      upsert_each rest user_agent_type
        match upsertedEntity with
        | Some upserted => modified_entities ++ [upserted]
        | None => modified_entities
        end
  end.

(** What the client answers to the writes of [entities], one after the other,
    up to the first write that raises: the entity written, or nothing for an
    item that failed. *)
Fixpoint upsert_answers (entities : list Entity.t)
    (user_agent_type : UserAgentType) (w : World) : list (option Entity.t) :=
  match entities with
  | [] => []
  | entity :: rest =>
      match upsert_entity port_client entity
              (get_port_request_options port_app_config) user_agent_type
              false w with
      | (Returned answer, w') =>
          answer :: upsert_answers rest user_agent_type w'
      | (Raised _, _) => []
      end
  end.

(** [upsert], lines 101-135. *)
Definition upsert (entities : list Entity.t)
    (user_agent_type : UserAgentType) : Task (list Entity.t) :=
  if create_missing_related_entities port_app_config then
    remote
      (CallBatchUpsertEntities entities
         (get_port_request_options port_app_config) user_agent_type false)
      (batch_upsert_entities port_client entities
         (get_port_request_options port_app_config) user_agent_type false)
  else
    let entities_with_search_identifier :=
      fst (partition_by_search_identifier entities) in
    let entities_without_search_identifier :=
      snd (partition_by_search_identifier entities) in
    let ordered_created_entities :=
      rev (entities_with_search_identifier
           ++ order_by_entities_dependencies
                entities_without_search_identifier) in
    upsert_each ordered_created_entities user_agent_type [].

(** [_safe_delete], lines 28-63. *)
Definition _safe_delete (entities_to_delete entities_to_protect
    : list EntityRef.t) (user_agent_type : UserAgentType) : Task unit :=
  match entities_to_delete with
  | [] => ret tt
  | _ :: _ =>
      related_entities_refs <-
        remote (CallGetRelatedEntitiesRefs entities_to_protect)
               (get_related_entities_refs entities_to_protect) ;;
      delete
        (allowed_entities_to_delete
           (create_missing_related_entities port_app_config)
           entities_to_delete entities_to_protect related_entities_refs)
        user_agent_type
  end.

(** [apply_diff], lines 65-81. *)
Definition apply_diff (entities : EntityDiff)
    (user_agent_type : UserAgentType) : Task unit :=
  let diff := get_port_diff (before entities) (after entities) in
  let kept_entities := created diff ++ modified diff in
  modified_entities <- upsert kept_entities user_agent_type ;;
  let modified_entities_refs :=
    map EntityRef.from_entity modified_entities in
  let deleted_refs := map EntityRef.from_entity (deleted diff) in
  _safe_delete deleted_refs modified_entities_refs user_agent_type.

(** [delete_diff], lines 83-99. *)
Definition delete_diff (entities : EntityRefDiff)
    (user_agent_type : UserAgentType) : Task unit :=
  let diff := get_port_ref_diff (ref_before entities) (ref_after entities) in
  match deleted diff with
  | [] => ret tt
  | _ :: _ =>
      let kept_entities := created diff ++ modified diff in
      _safe_delete (deleted diff) kept_entities user_agent_type
  end.

End Applier.

(** * A small catalog to run the applier on

    The scenarios of the development run the applier against an in-memory
    catalog: the world is the list of stored entities.  An entity with an empty
    identifier is refused by the catalog; the refusal is raised when
    [should_raise] is set and is answered by nothing otherwise.  The catalog
    takes the name of a relation for the blueprint of its targets. *)
Module Catalog.

Definition World : Type := list Entity.t.

Definition accepts (entity : Entity.t) : bool :=
  negb (String.eqb (Entity.identifier entity) "").

Definition holds (ref : EntityRef.t) (entity : Entity.t) : bool :=
  is_same_entity (EntityRef.from_entity entity) ref.

Definition put (entity : Entity.t) (w : World) : World :=
  List.filter (fun e => negb (holds (EntityRef.from_entity entity) e)) w
  ++ [entity].

Definition drop (ref : EntityRef.t) (w : World) : World :=
  List.filter (fun e => negb (holds ref e)) w.

Definition upsert_one (entity : Entity.t) (_ : unit) (_ : string)
    (should_raise : bool) (w : World) : outcome (option Entity.t) * World :=
  if accepts entity then (Returned (Some entity), put entity w)
  else if should_raise then (Raised "entity refused", w)
  else (Returned None, w).

Definition upsert_batch (entities : list Entity.t) (_ : unit)
    (_ : string) (should_raise : bool) (w : World)
    : outcome (list Entity.t) * World :=
  if should_raise && negb (forallb accepts entities)
  then (Raised "entity refused", w)
  else (Returned (List.filter accepts entities),
        fold_left (fun w e => put e w) (List.filter accepts entities) w).

Definition delete_one (ref : EntityRef.t) (_ : unit) (_ : string)
    (_ : bool) (w : World) : outcome unit * World :=
  (Returned tt, drop ref w).

Definition delete_batch (refs : list EntityRef.t) (_ : unit)
    (_ : string) (_ : bool) (w : World) : outcome unit * World :=
  (Returned tt, fold_left (fun w r => drop r w) refs w).

Definition client : PortClient World unit string :=
  {| batch_upsert_entities := upsert_batch;
     upsert_entity := upsert_one;
     batch_delete_entities := delete_batch;
     delete_entity := delete_one |}.

Definition targets (entity : Entity.t) : list EntityRef.t :=
  flat_map
    (fun rel => map (fun id => EntityRef.mk id (fst rel)) (snd rel))
    (Entity.relations entity).

Definition related_entity_refs (entities : list EntityRef.t)
    (w : World) : outcome (list EntityRef.t) * World :=
  (Returned
     (flat_map targets
        (List.filter (fun e => existsb (fun r => holds r e) entities) w)),
   w).

Definition config (create_missing delete_dependent : bool)
    : PortAppConfig unit :=
  {| create_missing_related_entities := create_missing;
     delete_dependent_entities := delete_dependent;
     get_port_request_options := tt |}.

(** An orderer for lists whose members have no relations among them: any
    order is dependency-consistent, the input order is kept. *)
Definition input_order {A : Type} (l : list A) : list A := l.

Definition service (identifier : string) (search : bool) : Entity.t :=
  Entity.mk identifier "service" [] [] search.

End Catalog.

(** * The Kafka ingestion loop: [KafkaConsumer]

    The consumer of [confluent_kafka] and the callback [msg_process] are
    collaborators: they answer from a state of their own and may raise.  The
    loop is written in the same monad; its records are the calls to the
    consumer and to the callback, each with its answer, and the log lines,
    which is where a failure of a processing attempt shows.  Every exception
    is an [Exception]: [BaseException]s that are not are outside the model. *)
Module Kafka.

(** What the loop reads of a [confluent_kafka.Message]. *)
Record Message : Type := mkMessage {
  value : string;
  topic : string;
  partition : nat;
  offset : nat;
  error : option Exn
}.

Definition Message_eqb (a b : Message) : bool :=
  String.eqb (value a) (value b) && String.eqb (topic a) (topic b)
  && Nat.eqb (partition a) (partition b) && Nat.eqb (offset a) (offset b)
  && match error a, error b with
     | None, None => true
     | Some x, Some y => String.eqb x y
     | _, _ => false
     end.

(** [KafkaConsumerConfig], lines 13-19; a field of type [str | None] is an
    optional string. *)
Record KafkaConsumerConfig : Type := mkConfig {
  brokers : string;
  username : option string;
  password : option string;
  security_protocol : string;
  authentication_mechanism : string;
  kafka_security_enabled : bool
}.

(** The dictionary [kafka_config] that [__init__] hands to [Consumer], lines
    36-51; a value is a string or [None]. *)
Definition kafka_config (config : KafkaConsumerConfig)
    : gmap string (option string) :=
  if kafka_security_enabled config then
    list_to_map
      [("bootstrap.servers", Some (brokers config));
       ("security.protocol", Some (security_protocol config));
       ("sasl.mechanism", Some (authentication_mechanism config));
       ("sasl.username", username config);
       ("sasl.password", password config);
       ("group.id", username config);
       ("enable.auto.commit", Some "false")]
  else
    list_to_map
      [("bootstrap.servers", Some (brokers config));
       ("group.id", Some "no-security");
       ("enable.auto.commit", Some "false")].

(** The places of a turn of the loop where the handler of SIGINT and SIGTERM
    may run. *)
Inductive SignalPoint : Type :=
| BeforePoll
| AfterPoll
| AfterProcess
| AfterCommit.

Definition SignalPoint_eqb (a b : SignalPoint) : bool :=
  match a, b with
  | BeforePoll, BeforePoll | AfterPoll, AfterPoll
  | AfterProcess, AfterProcess | AfterCommit, AfterCommit => true
  | _, _ => false
  end.

(** The outcome of [start]: the loop was left, or the schedule of the model
    ended while the loop was still polling. *)
Inductive LoopExit : Type :=
| Stopped
| StillRunning.

Section Consumer.

Context {Broker Payload : Type}.

Inductive Event : Type :=
| Subscribe (topics : list string) (result : outcome unit)
| Poll (result : outcome (option Message))
| LogProcessMessage (msg : Message)
| MsgProcess (message : Payload) (topic : string) (result : outcome unit)
| LogFailedToProcess (e : Exn)
| LogFailedProcessMessage (msg : Message) (e : Exn)
| Commit (result : outcome unit)
| LogError (e : Exn)
| LogExitingGracefully
| Close (result : outcome unit).

(** The fields of [self] that change, [running], and the state of the
    collaborators. *)
Record State : Type := mkState {
  running : bool;
  broker : Broker
}.

(** [self.consumer], [self.msg_process], [self.org_id] and
    [json.loads (raw_msg.value().decode())]. *)
Variable consumer_subscribe : list string -> Broker -> outcome unit * Broker.
Variable consumer_poll : Broker -> outcome (option Message) * Broker.
Variable consumer_commit : Broker -> outcome unit * Broker.
Variable consumer_close : Broker -> outcome unit * Broker.
Variable msg_process : Payload -> string -> Broker -> outcome unit * Broker.
Variable json_loads : string -> outcome Payload.
Variable org_id : option string.

Local Abbreviation Task := (M State Event).

Definition on_broker {A : Type} (op : Broker -> outcome A * Broker)
    (st : State) : outcome A * State :=
  match op (broker st) with
  | (r, b) => (r, {| running := running st; broker := b |})
  end.

Definition set_running (b : bool) : Task unit :=
  fun st => (Returned tt, {| running := b; broker := broker st |}, []).

Definition of_outcome {A : Type} (r : outcome A) : Task A :=
  fun st => (r, st, []).

(** [exit_gracefully], lines 105-108. *)
Definition exit_gracefully : Task unit :=
  emit LogExitingGracefully ;;;
  set_running false ;;;
  observe Close (on_broker consumer_close).

(** The handler runs at [here] when the signal of this turn is due there. *)
Definition deliver (signal : option SignalPoint) (here : SignalPoint)
    : Task unit :=
  match signal with
  | Some point =>
      if SignalPoint_eqb point here then exit_gracefully else ret tt
  | None => ret tt
  end.

(** [_handle_message], lines 55-65; [try_wrapper] is run to its end by
    [asyncio.run]. *)
Definition _handle_message (raw_msg : Message) : Task unit :=
  message <- of_outcome (json_loads (value raw_msg)) ;;
  let topic := topic raw_msg in
  try_except
    (observe (MsgProcess message topic) (on_broker (msg_process message topic)))
    (fun e => emit (LogFailedToProcess e)).

(** One turn of the loop of [start], lines 80-101. *)
Definition turn (signal : option SignalPoint) : Task unit :=
  try_except
    (deliver signal BeforePoll ;;;
     msg <- observe Poll (on_broker consumer_poll) ;;
     deliver signal AfterPoll ;;;
     match msg with
     | None => ret tt
     | Some msg =>
         match error msg with
         | Some kafka_error => raise kafka_error
         | None =>
             try_finally
               (try_except
                  (emit (LogProcessMessage msg) ;;;
                   _handle_message msg ;;;
                   deliver signal AfterProcess)
                  (fun process_error =>
                     emit (LogFailedProcessMessage msg process_error)))
               (observe Commit (on_broker consumer_commit))
             ;;; deliver signal AfterCommit
         end
     end)
    (fun message_error => emit (LogError message_error)).

(** [while self.running: ...]; the schedule says, turn by turn, whether and
    where a signal arrives, and bounds the number of turns. *)
Fixpoint poll_loop (schedule : list (option SignalPoint)) : Task LoopExit :=
  fun st =>
    if running st then
      match schedule with
      | [] => (Returned StillRunning, st, [])
      | signal :: rest => (turn signal ;;; poll_loop rest) st
      end
    else (Returned Stopped, st, []).

Definition topics : list string :=
  let org := match org_id with Some o => o | None => "None" end in
  [String.append org ".runs"; String.append org ".change.log"].

(** [start], lines 67-103.  The [finally] clause runs when the body is left;
    a schedule that ends while the loop is polling leaves the body unfinished
    and shows the calls made so far. *)
Definition start (schedule : list (option SignalPoint)) : Task LoopExit :=
  fun st =>
    let body :=
      observe (Subscribe topics) (on_broker (consumer_subscribe topics)) ;;;
      set_running true ;;;
      poll_loop schedule in
    match body st with
    | (Returned StillRunning, st', t) => (Returned StillRunning, st', t)
    | (r, st', t) =>
        match observe Close (on_broker consumer_close) st' with
        | (Returned _, st'', t') => (r, st'', t ++ t')
        | (Raised e, st'', t') => (Raised e, st'', t ++ t')
        end
    end.

(** ** Reading a trace: where the processing of a message stands *)

Inductive Phase : Type :=
| Idle
| Polled (msg : Message)
| Attempting (msg : Message)
| Completed (msg : Message).

(** The phase after one more record; [None] when the record is out of order:
    an attempt that does not start on the message just polled, or a commit
    while no attempt has completed. *)
Definition phase_step (phase : option Phase) (ev : Event) : option Phase :=
  match phase with
  | None => None
  | Some ph =>
      match ev with
      | Poll (Returned (Some msg)) => Some (Polled msg)
      | LogProcessMessage msg =>
          match ph with
          | Polled polled =>
              if Message_eqb polled msg then Some (Attempting msg) else None
          | _ => None
          end
      | MsgProcess _ _ (Returned _) | LogFailedToProcess _
      | LogFailedProcessMessage _ _ =>
          match ph with
          | Attempting msg => Some (Completed msg)
          | _ => Some ph
          end
      | Commit _ =>
          match ph with
          | Completed _ => Some Idle
          | _ => None
          end
      | _ => Some ph
      end
  end.

Definition phase_after (trace : list Event) : option Phase :=
  fold_left phase_step trace (Some Idle).

Definition is_commit (ev : Event) : bool :=
  match ev with Commit _ => true | _ => false end.

(** The records that end a processing attempt: the callback returned, or the
    failure of the attempt was logged (lines 63 and 94). *)
Definition is_completion (ev : Event) : bool :=
  match ev with
  | MsgProcess _ _ (Returned _) | LogFailedToProcess _
  | LogFailedProcessMessage _ _ => true
  | _ => false
  end.

(** Counting in a trace: the polls, the polls that brought a message without
    a broker error, the commits, and the polls issued after the handler of
    the termination signals ran. *)
Definition is_poll (ev : Event) : bool :=
  match ev with Poll _ => true | _ => false end.

Definition is_valid_poll (ev : Event) : bool :=
  match ev with
  | Poll (Returned (Some msg)) =>
      match error msg with None => true | Some _ => false end
  | _ => false
  end.

Definition is_exit (ev : Event) : bool :=
  match ev with LogExitingGracefully => true | _ => false end.

Definition count (f : Event -> bool) (trace : list Event) : nat :=
  length (List.filter f trace).

Fixpoint polls_after_exit (trace : list Event) : nat :=
  match trace with
  | [] => 0
  | LogExitingGracefully :: rest => count is_poll rest
  | _ :: rest => polls_after_exit rest
  end.

(** What a phase says about the trace that led to it: an attempt on [msg]
    has begun, and for [Completed] has also ended, with no commit since it
    began. *)
Definition phase_reading (trace : list Event) (ph : Phase) : Prop :=
  match ph with
  | Idle | Polled _ => True
  | Attempting msg =>
      exists a b,
        trace = a ++ LogProcessMessage msg :: b
        /\ Forall (fun ev => is_commit ev = false) b
  | Completed msg =>
      exists a b done c,
        trace = a ++ LogProcessMessage msg :: b ++ done :: c
        /\ is_completion done = true
        /\ Forall (fun ev => is_commit ev = false) (b ++ done :: c)
  end.

End Consumer.

(** A broker to run the loop on: the messages still to be delivered and the
    offsets committed so far. *)
Record Queue : Type := mkQueue {
  pending : list Message;
  consumed : list nat;
  committed : list nat;
  closed : bool
}.

Definition queue_subscribe (_ : list string) (q : Queue)
    : outcome unit * Queue := (Returned tt, q).

Definition queue_poll (q : Queue) : outcome (option Message) * Queue :=
  if closed q then (Raised "Consumer closed", q)
  else match pending q with
       | [] => (Returned None, q)
       | m :: rest =>
           (Returned (Some m),
            {| pending := rest; consumed := consumed q ++ [offset m];
               committed := committed q; closed := closed q |})
       end.

Definition queue_commit (q : Queue) : outcome unit * Queue :=
  if closed q then (Raised "Consumer closed", q)
  else (Returned tt,
        {| pending := pending q; consumed := consumed q;
           committed := consumed q; closed := closed q |}).

Definition queue_close (q : Queue) : outcome unit * Queue :=
  if closed q then (Raised "Consumer already closed", q)
  else (Returned tt,
        {| pending := pending q; consumed := consumed q;
           committed := committed q; closed := true |}).

(** A callback that fails on the payload [boom], and a decoder that refuses
    the empty body. *)
Definition demo_process (message : string) (_ : string) (q : Queue)
    : outcome unit * Queue :=
  if String.eqb message "boom" then (Raised "cannot process", q)
  else (Returned tt, q).

Definition demo_loads (body : string) : outcome string :=
  if String.eqb body "" then (Raised "Expecting value") else Returned body.

Definition demo_start :=
  start queue_subscribe queue_poll queue_commit queue_close demo_process
    demo_loads (Some "org").

End Kafka.

(** * Properties of the deletion guard *)

Set Default Proof Using "Type".

Section GuardFacts.

Variable policy : bool.
Variables keep related : list EntityRef.t.

Lemma safe_delete_step_guard (acc : list EntityRef.t) (E : EntityRef.t) :
  safe_delete_step policy keep related acc E
  = acc ++ (if guard_passes policy keep related E then [E] else []).
Proof.
  unfold safe_delete_step, guard_passes.
  destruct (is_part_of_related related E), policy,
    (is_part_of_created keep E); simpl; now rewrite ?app_nil_r.
Qed.

Lemma safe_delete_loop_filter (candidates acc : list EntityRef.t) :
  fold_left (safe_delete_step policy keep related) candidates acc
  = acc ++ List.filter (guard_passes policy keep related) candidates.
Proof.
  revert acc. induction candidates as [|E rest IH]; intros acc; simpl.
  - now rewrite app_nil_r.
  - rewrite IH, safe_delete_step_guard.
    destruct (guard_passes policy keep related E); simpl.
    + now rewrite <- app_assoc.
    + now rewrite app_nil_r.
Qed.

Lemma allowed_is_filter (candidates : list EntityRef.t) :
  allowed_entities_to_delete policy candidates keep related
  = List.filter (guard_passes policy keep related) candidates.
Proof. unfold allowed_entities_to_delete. now rewrite safe_delete_loop_filter. Qed.

(** The code and section 4.3 take the same decision in seven of the eight
    rows: everywhere but for a candidate that is in [keep], related to [keep],
    with the policy disabled. *)
Lemma guard_agrees_off_one_row (E : EntityRef.t) :
  is_part_of_created keep E && is_part_of_related related E && negb policy
    = false ->
  guard_passes policy keep related E = guard_as_specified policy keep related E.
Proof.
  unfold guard_passes, guard_as_specified.
  destruct (is_part_of_related related E), policy,
    (is_part_of_created keep E); simpl; congruence.
Qed.

Lemma guard_differs_on_one_row (E : EntityRef.t) :
  is_part_of_created keep E = true ->
  is_part_of_related related E = true ->
  policy = false ->
  guard_passes policy keep related E = true
  /\ guard_as_specified policy keep related E = false.
Proof.
  unfold guard_passes, guard_as_specified. intros -> -> ->. now split.
Qed.

End GuardFacts.



(** C8.  The list the deletion guard passes to [delete] is a subsequence of
    the candidate list: deletable candidates keep their relative order. *)
Theorem safe_delete_preserves_order (policy : bool)
    (candidates keep related : list EntityRef.t) :
  sublist (allowed_entities_to_delete policy candidates keep related)
          candidates.
Proof.
  rewrite allowed_is_filter.
  induction candidates as [|E rest IH]; simpl.
  - constructor.
  - destruct (guard_passes policy keep related E).
    + now apply sublist_skip.
    + now apply sublist_cons.
Qed.

(** * Properties of the monad *)

Section MonadFacts.

Context {W C : Type}.

Lemma run_eta {A : Type} (r : outcome A * W * list C) :
  r = (result_of r, world_of r, calls_of r).
Proof. now destruct r as [[? ?] ?]. Qed.

Lemma bind_returned {A B : Type} (m : M W C A) (k : A -> M W C B) (w : W)
    (a : A) :
  result_of (m w) = Returned a ->
  bind m k w
  = (result_of (k a (world_of (m w))), world_of (k a (world_of (m w))),
     calls_of (m w) ++ calls_of (k a (world_of (m w)))).
Proof.
  unfold bind, result_of, world_of, calls_of.
  destruct (m w) as [[r w'] t]; simpl. intros ->.
  now destruct (k a w') as [[? ?] ?].
Qed.

Lemma bind_raised {A B : Type} (m : M W C A) (k : A -> M W C B) (w : W)
    (e : Exn) :
  result_of (m w) = Raised e ->
  bind m k w = (Raised e, world_of (m w), calls_of (m w)).
Proof.
  unfold bind, result_of, world_of, calls_of.
  destruct (m w) as [[r w'] t]; simpl. now intros ->.
Qed.

Lemma remote_run {A : Type} (c : C) (op : W -> outcome A * W) (w : W) :
  remote c op w = (fst (op w), snd (op w), [c]).
Proof. unfold remote. now destruct (op w). Qed.

Lemma calls_of_bind_Forall {A B : Type} (P : C -> Prop) (m : M W C A)
    (k : A -> M W C B) (w : W) :
  Forall P (calls_of (m w)) ->
  (forall a w', Forall P (calls_of (k a w'))) ->
  Forall P (calls_of (bind m k w)).
Proof.
  intros Hm Hk. destruct (result_of (m w)) as [a|e] eqn:Hr.
  - rewrite (bind_returned _ _ _ _ Hr). unfold calls_of at 1; simpl.
    apply Forall_app. split; [exact Hm | apply Hk].
  - rewrite (bind_raised _ _ _ _ Hr). exact Hm.
Qed.

End MonadFacts.

(** * Properties of the applier *)

Section ApplierFacts.

Context {World RequestOptions UserAgentType : Type}.
Variable port_client : PortClient World RequestOptions UserAgentType.
Variable port_app_config : PortAppConfig RequestOptions.
Variable get_related_entities_refs :
  list EntityRef.t -> World -> outcome (list EntityRef.t) * World.
Variable order_by_entities_dependencies : list Entity.t -> list Entity.t.
Variable order_by_entities_ref_dependencies :
  list EntityRef.t -> list EntityRef.t.
Variable get_port_diff :
  list Entity.t -> list Entity.t -> EntityPortDiff Entity.t.
Variable get_port_ref_diff :
  list EntityRef.t -> list EntityRef.t -> EntityPortDiff EntityRef.t.

Local Abbreviation options := (get_port_request_options port_app_config).
Local Abbreviation delete_each' := (delete_each port_client port_app_config).
Local Abbreviation delete' :=
  (delete port_client port_app_config order_by_entities_ref_dependencies).
Local Abbreviation upsert_each' := (upsert_each port_client port_app_config).
Local Abbreviation upsert_answers' :=
  (upsert_answers port_client port_app_config).
Local Abbreviation upsert' :=
  (upsert port_client port_app_config order_by_entities_dependencies).
Local Abbreviation safe_delete' :=
  (_safe_delete port_client port_app_config get_related_entities_refs
     order_by_entities_ref_dependencies).
Local Abbreviation apply_diff' :=
  (apply_diff port_client port_app_config get_related_entities_refs
     order_by_entities_dependencies order_by_entities_ref_dependencies
     get_port_diff).
Local Abbreviation delete_diff' :=
  (delete_diff port_client port_app_config get_related_entities_refs
     order_by_entities_ref_dependencies get_port_ref_diff).
Local Abbreviation Trace := (list (Call RequestOptions UserAgentType)).

Local Abbreviation write_one ua :=
  (fun entity : Entity.t =>
     @CallUpsertEntity RequestOptions UserAgentType entity options ua false).
Local Abbreviation delete_one ua :=
  (fun ref : EntityRef.t =>
     @CallDeleteEntity RequestOptions UserAgentType ref options ua false).

(** ** The partition loop *)

Lemma partition_loop_filter (entities : list Entity.t)
    (acc : list Entity.t * list Entity.t) :
  fold_left partition_step entities acc
  = (fst acc ++ List.filter Entity.is_using_search_identifier entities,
     snd acc
     ++ List.filter (fun e => negb (Entity.is_using_search_identifier e))
          entities).
Proof.
  revert acc. induction entities as [|e rest IH]; intros [with_id without_id].
  - simpl. now rewrite !app_nil_r.
  - simpl. rewrite IH. unfold partition_step.
    destruct (Entity.is_using_search_identifier e); simpl;
      now rewrite <- ?app_assoc.
Qed.

Lemma partition_by_search_identifier_filter (entities : list Entity.t) :
  partition_by_search_identifier entities
  = (List.filter Entity.is_using_search_identifier entities,
     List.filter (fun e => negb (Entity.is_using_search_identifier e))
       entities).
Proof. unfold partition_by_search_identifier. now rewrite partition_loop_filter. Qed.

(** ** The delete loop *)

Lemma delete_each_calls_prefix (refs : list EntityRef.t)
    (ua : UserAgentType) (w : World) :
  calls_of (delete_each' refs ua w) `prefix_of` map (delete_one ua) refs.
Proof.
  revert w. induction refs as [|ref rest IH]; intros w; simpl.
  - apply prefix_nil.
  - set (m := remote _ _).
    destruct (result_of (m w)) as [a|e] eqn:Hr.
    + rewrite (bind_returned _ _ _ _ Hr). unfold calls_of at 1; simpl.
      subst m. rewrite remote_run. unfold calls_of at 1; simpl.
      apply prefix_cons, IH.
    + rewrite (bind_raised _ _ _ _ Hr). unfold calls_of at 1; simpl.
      subst m. rewrite remote_run. unfold calls_of; simpl.
      apply prefix_cons, prefix_nil.
Qed.

Lemma delete_each_run (refs : list EntityRef.t) (ua : UserAgentType)
    (w : World) :
  (forall ref, never_raises (delete_entity port_client ref options ua false)) ->
  result_of (delete_each' refs ua w) = Returned tt
  /\ calls_of (delete_each' refs ua w) = map (delete_one ua) refs.
Proof.
  intros Hok. revert w. induction refs as [|ref rest IH]; intros w; simpl.
  - now split.
  - set (m := remote _ _).
    assert (Hr : result_of (m w) = Returned tt).
    { subst m. rewrite remote_run. unfold result_of; simpl.
      destruct (Hok ref w) as [[] ->]. reflexivity. }
    rewrite (bind_returned _ _ _ _ Hr).
    unfold result_of at 1, calls_of at 1; simpl.
    destruct (IH (world_of (m w))) as [-> ->]. split; [reflexivity|].
    subst m. rewrite remote_run. reflexivity.
Qed.

(** ** The write loop *)

Lemma upsert_each_calls_prefix (entities acc : list Entity.t)
    (ua : UserAgentType) (w : World) :
  calls_of (upsert_each' entities ua acc w) `prefix_of` map (write_one ua) entities.
Proof.
  revert acc w. induction entities as [|e rest IH]; intros acc w; simpl.
  - apply prefix_nil.
  - set (m := remote _ _).
    destruct (result_of (m w)) as [a|x] eqn:Hr.
    + rewrite (bind_returned _ _ _ _ Hr). unfold calls_of at 1; simpl.
      subst m. rewrite remote_run. unfold calls_of at 1; simpl.
      apply prefix_cons, IH.
    + rewrite (bind_raised _ _ _ _ Hr). unfold calls_of at 1; simpl.
      subst m. rewrite remote_run. unfold calls_of; simpl.
      apply prefix_cons, prefix_nil.
Qed.

Lemma upsert_each_run (entities acc : list Entity.t) (ua : UserAgentType)
    (w : World) :
  (forall e, never_raises (upsert_entity port_client e options ua false)) ->
  result_of (upsert_each' entities ua acc w)
  = Returned (acc ++ omap id (upsert_answers' entities ua w))
  /\ calls_of (upsert_each' entities ua acc w) = map (write_one ua) entities
  /\ length (upsert_answers' entities ua w) = length entities.
Proof.
  intros Hok. revert acc w.
  induction entities as [|e rest IH]; intros acc w; simpl.
  - rewrite app_nil_r. now repeat split.
  - set (m := remote _ _).
    destruct (Hok e w) as [answer Hanswer].
    assert (Hr : result_of (m w) = Returned answer).
    { subst m. rewrite remote_run. exact Hanswer. }
    rewrite (bind_returned _ _ _ _ Hr).
    unfold result_of at 1, calls_of at 1; simpl.
    assert (Hw : world_of (m w)
                 = snd (upsert_entity port_client e options ua false w)).
    { subst m. now rewrite remote_run. }
    destruct (upsert_entity port_client e options ua false w) as [r w'] eqn:Hop.
    simpl in Hanswer, Hw. subst r. rewrite Hw. simpl.
    destruct (IH (match answer with
                  | Some upserted => acc ++ [upserted]
                  | None => acc
                  end) w') as (-> & -> & ->).
    repeat split.
    + destruct answer; simpl; [now rewrite <- app_assoc | reflexivity].
    + subst m. now rewrite remote_run.
Qed.

Lemma upserted_one_by_one_writes (ua : UserAgentType) (entities : list Entity.t) :
  upserted_one_by_one (map (write_one ua) entities) = entities.
Proof. induction entities; simpl; congruence. Qed.

Lemma upserted_one_by_one_prefix (t1 t2 : Trace) :
  t1 `prefix_of` t2 -> upserted_one_by_one t1 `prefix_of` upserted_one_by_one t2.
Proof.
  intros [rest ->]. induction t1 as [|c t1 IH]; simpl.
  - apply prefix_nil.
  - destruct c; simpl; auto. now apply prefix_cons.
Qed.

Lemma Forall_prefix {A : Type} (P : A -> Prop) (l1 l2 : list A) :
  l1 `prefix_of` l2 -> Forall P l2 -> Forall P l1.
Proof. intros [k ->] H. now apply Forall_app in H. Qed.

Lemma filter_none {A : Type} (f : A -> bool) (l : list A) :
  Forall (fun x => f x = false) l -> List.filter f l = [].
Proof. induction 1 as [|x l Hx _ IH]; simpl; [reflexivity | now rewrite Hx]. Qed.

(** ** What [delete] and [upsert] call *)

Lemma delete_calls_shape (P : Call RequestOptions UserAgentType -> Prop)
    (refs : list EntityRef.t) (ua : UserAgentType) (w : World) :
  (forall rs, P (CallBatchDeleteEntities rs options ua false)) ->
  (forall r, P (CallDeleteEntity r options ua false)) ->
  Forall P (calls_of (delete' refs ua w)).
Proof.
  intros Hbatch Hone. unfold delete.
  destruct (delete_dependent_entities port_app_config).
  - rewrite remote_run. unfold calls_of; simpl. auto.
  - eapply Forall_prefix; [apply delete_each_calls_prefix|].
    apply List.Forall_forall. intros c Hc. apply in_map_iff in Hc.
    destruct Hc as (r & <- & _). apply Hone.
Qed.

Lemma upsert_calls_shape (P : Call RequestOptions UserAgentType -> Prop)
    (entities : list Entity.t) (ua : UserAgentType) (w : World) :
  (forall es, P (CallBatchUpsertEntities es options ua false)) ->
  (forall e, P (CallUpsertEntity e options ua false)) ->
  Forall P (calls_of (upsert' entities ua w)).
Proof.
  intros Hbatch Hone. unfold upsert.
  destruct (create_missing_related_entities port_app_config).
  - rewrite remote_run. unfold calls_of; simpl. auto.
  - eapply Forall_prefix; [apply upsert_each_calls_prefix|].
    apply List.Forall_forall. intros c Hc. apply in_map_iff in Hc.
    destruct Hc as (r & <- & _). apply Hone.
Qed.

Lemma safe_delete_calls_shape (P : Call RequestOptions UserAgentType -> Prop)
    (candidates keep : list EntityRef.t) (ua : UserAgentType) (w : World) :
  (forall rs, P (CallGetRelatedEntitiesRefs rs)) ->
  (forall rs, P (CallBatchDeleteEntities rs options ua false)) ->
  (forall r, P (CallDeleteEntity r options ua false)) ->
  Forall P (calls_of (safe_delete' candidates keep ua w)).
Proof.
  intros Hlookup Hbatch Hone. unfold _safe_delete.
  destruct candidates as [|E rest]; [constructor|].
  apply calls_of_bind_Forall.
  - rewrite remote_run. unfold calls_of; simpl. auto.
  - intros related w'. now apply delete_calls_shape.
Qed.

Lemma delete_never_looks_up (refs : list EntityRef.t) (ua : UserAgentType)
    (w : World) :
  List.filter is_lookup_call (calls_of (delete' refs ua w)) = [].
Proof. apply filter_none, delete_calls_shape; reflexivity. Qed.

Lemma upsert_never_looks_up (entities : list Entity.t) (ua : UserAgentType)
    (w : World) :
  List.filter is_lookup_call (calls_of (upsert' entities ua w)) = [].
Proof. apply filter_none, upsert_calls_shape; reflexivity. Qed.

Lemma safe_delete_lookups (candidates keep : list EntityRef.t)
    (ua : UserAgentType) (w : World) :
  List.filter is_lookup_call (calls_of (safe_delete' candidates keep ua w))
  = match candidates with
    | [] => []
    | _ :: _ => [CallGetRelatedEntitiesRefs keep]
    end.
Proof.
  unfold _safe_delete. destruct candidates as [|E rest]; [reflexivity|].
  set (m := remote _ _).
  assert (Hm : calls_of (m w) = [CallGetRelatedEntitiesRefs keep]).
  { subst m. now rewrite remote_run. }
  destruct (result_of (m w)) as [related|e] eqn:Hr.
  - rewrite (bind_returned _ _ _ _ Hr). unfold calls_of at 1; simpl.
    rewrite Hm. simpl. now rewrite delete_never_looks_up.
  - rewrite (bind_raised _ _ _ _ Hr). unfold calls_of at 1; simpl.
    now rewrite Hm.
Qed.

(** With candidates to consider, [_safe_delete] looks up the entities related
    to the protect set and hands to [delete] what the loop of the guard let
    through. *)
Lemma safe_delete_deletes_allowed (candidates keep related : list EntityRef.t)
    (ua : UserAgentType) (w w' : World) :
  candidates <> [] ->
  get_related_entities_refs keep w = (Returned related, w') ->
  safe_delete' candidates keep ua w
  = (result_of
       (delete'
          (allowed_entities_to_delete
             (create_missing_related_entities port_app_config)
             candidates keep related) ua w'),
     world_of
       (delete'
          (allowed_entities_to_delete
             (create_missing_related_entities port_app_config)
             candidates keep related) ua w'),
     CallGetRelatedEntitiesRefs keep
     :: calls_of
          (delete'
             (allowed_entities_to_delete
                (create_missing_related_entities port_app_config)
                candidates keep related) ua w')).
Proof.
  intros Hsome Hlookup. unfold _safe_delete.
  destruct candidates as [|E rest]; [now destruct Hsome|].
  set (m := remote _ _).
  assert (Hm : m w = (Returned related, w', [CallGetRelatedEntitiesRefs keep])).
  { subst m. now rewrite remote_run, Hlookup. }
  rewrite (bind_returned m _ w related) by now rewrite Hm.
  now rewrite Hm.
Qed.

(** C10.  With an empty list of candidates [_safe_delete] returns at once:
    it returns normally, leaves the remote world as it is and issues no call,
    neither the lookup of the entities related to the protect set nor a
    delete. *)
Theorem safe_delete_nothing_to_delete (keep : list EntityRef.t)
    (ua : UserAgentType) (w : World) :
  safe_delete' [] keep ua w = (Returned tt, w, []).
Proof. reflexivity. Qed.

(** A reconciliation whose diff has nothing deleted issues the writes of
    [upsert] and nothing else. *)
Lemma apply_diff_nothing_deleted (entities : EntityDiff) (ua : UserAgentType)
    (w : World) :
  deleted (get_port_diff (before entities) (after entities)) = [] ->
  calls_of (apply_diff' entities ua w)
  = calls_of
      (upsert'
         (created (get_port_diff (before entities) (after entities))
          ++ modified (get_port_diff (before entities) (after entities)))
         ua w).
Proof.
  intros Hnone. unfold apply_diff. rewrite Hnone. simpl.
  set (m := upsert _ _ _ _ _).
  destruct (result_of (m w)) as [written|e] eqn:Hr.
  - rewrite (bind_returned _ _ _ _ Hr). unfold calls_of at 1; simpl.
    now rewrite app_nil_r.
  - now rewrite (bind_raised _ _ _ _ Hr).
Qed.

(** C5.  With [create_missing_related_entities] enabled, [upsert] issues one
    call, [batch_upsert_entities], carrying the input entities as they were
    given, with [should_raise=False]; what the call answers (the entities
    written, or what it raises) is what [upsert] answers, and the remote world
    is the one the call leaves. *)
Theorem upsert_batched (entities : list Entity.t) (ua : UserAgentType)
    (w : World) :
  create_missing_related_entities port_app_config = true ->
  upsert' entities ua w
  = (fst (batch_upsert_entities port_client entities options ua false w),
     snd (batch_upsert_entities port_client entities options ua false w),
     [CallBatchUpsertEntities entities options ua false]).
Proof. intros Hon. unfold upsert. rewrite Hon. apply remote_run. Qed.

(** C4.  With [delete_dependent_entities] enabled, [delete] issues one call,
    [batch_delete_entities], carrying all the references; otherwise it issues
    one [delete_entity] call per reference, in the order the orderer gives,
    each with [should_raise=False].  The per-reference calls go on to the end
    of the list as long as none of them raises, which is what the client
    promises for [should_raise=False]. *)
Theorem delete_calls (refs : list EntityRef.t) (ua : UserAgentType)
    (w : World) :
  (forall ref, never_raises (delete_entity port_client ref options ua false)) ->
  calls_of (delete' refs ua w)
  = if delete_dependent_entities port_app_config
    then [CallBatchDeleteEntities refs options ua false]
    else map (fun ref => CallDeleteEntity ref options ua false)
             (order_by_entities_ref_dependencies refs).
Proof.
  intros Hok. unfold delete.
  destruct (delete_dependent_entities port_app_config).
  - now rewrite remote_run.
  - now destruct (delete_each_run
                    (order_by_entities_ref_dependencies refs) ua w Hok).
Qed.

(** ** The order of the per-entity writes *)

Lemma split_prefix_of_app {A : Type} (P Q : A -> Prop) (l a b : list A) :
  l `prefix_of` a ++ b -> Forall P a -> Forall Q b ->
  exists l1 l2, l = l1 ++ l2 /\ Forall P l1 /\ Forall Q l2.
Proof.
  intros [k Hk] Ha Hb. symmetry in Hk. apply app_eq_app in Hk.
  destruct Hk as [m [[-> ->] | [-> ->]]].
  - exists a, m. apply Forall_app in Hb. tauto.
  - exists l, []. apply Forall_app in Ha. rewrite app_nil_r. intuition.
Qed.

Lemma upsert_writes_prefix (entities : list Entity.t) (ua : UserAgentType)
    (w : World) :
  create_missing_related_entities port_app_config = false ->
  upserted_one_by_one (calls_of (upsert' entities ua w))
  `prefix_of`
  rev (order_by_entities_dependencies
         (List.filter (fun e => negb (Entity.is_using_search_identifier e))
            entities))
  ++ rev (List.filter Entity.is_using_search_identifier entities).
Proof.
  intros Hoff. unfold upsert. rewrite Hoff.
  rewrite partition_by_search_identifier_filter. simpl.
  rewrite <- rev_app_distr.
  set (ordered := rev _).
  pose proof (upserted_one_by_one_prefix _ _
                (upsert_each_calls_prefix ordered [] ua w)) as Hprefix.
  now rewrite upserted_one_by_one_writes in Hprefix.
Qed.

Lemma upsert_writes_all (entities : list Entity.t) (ua : UserAgentType)
    (w : World) :
  create_missing_related_entities port_app_config = false ->
  (forall e, never_raises (upsert_entity port_client e options ua false)) ->
  upserted_one_by_one (calls_of (upsert' entities ua w))
  = rev (order_by_entities_dependencies
           (List.filter (fun e => negb (Entity.is_using_search_identifier e))
              entities))
    ++ rev (List.filter Entity.is_using_search_identifier entities).
Proof.
  intros Hoff Hok. unfold upsert. rewrite Hoff.
  rewrite partition_by_search_identifier_filter. simpl.
  set (ordered := rev _).
  destruct (upsert_each_run ordered [] ua w Hok) as (_ & -> & _).
  rewrite upserted_one_by_one_writes. apply rev_app_distr.
Qed.

(** C2, amended.  In the non-batched path the per-entity writes are issued in
    the reverse of [entities_with_search_identifier ++
    order_by_entities_dependencies entities_without_search_identifier]: the
    writes follow, as far as they go, the reversed dependency order of the
    entities without a search identifier and then the entities with one, in
    the reverse of their input order.  So the entities flagged as using a
    search identifier are written after all the others, not ahead of them;
    and every entity is written when no call raises. *)
Theorem upsert_search_identifier_written_last (entities : list Entity.t)
    (ua : UserAgentType) (w : World) :
  create_missing_related_entities port_app_config = false ->
  (forall l e, In e (order_by_entities_dependencies l) -> In e l) ->
  let with_id := List.filter Entity.is_using_search_identifier entities in
  let without_id :=
    List.filter (fun e => negb (Entity.is_using_search_identifier e))
      entities in
  let writes := upserted_one_by_one (calls_of (upsert' entities ua w)) in
  writes `prefix_of`
    rev (order_by_entities_dependencies without_id) ++ rev with_id
  /\ search_identifier_last writes
  /\ ((forall e, never_raises (upsert_entity port_client e options ua false)) ->
      writes = rev (order_by_entities_dependencies without_id) ++ rev with_id).
Proof.
  intros Hoff Hmembers with_id without_id writes.
  assert (Hprefix : writes `prefix_of`
            rev (order_by_entities_dependencies without_id) ++ rev with_id)
    by (now apply upsert_writes_prefix).
  split; [exact Hprefix|]. split.
  - unfold search_identifier_last.
    eapply split_prefix_of_app; [exact Hprefix| |].
    + apply List.Forall_forall. intros e He.
      apply in_rev, Hmembers, filter_In in He.
      destruct He as [_ He]. now apply negb_true_iff in He.
    + apply List.Forall_forall. intros e He.
      apply in_rev, filter_In in He. exact (proj2 He).
  - intros Hok. now apply upsert_writes_all.
Qed.

(** Whatever the orderer, as long as it returns a permutation of its input:
    for one search-identifier entity [S] followed by one other entity [N], the
    write of [N] is issued first and the write of [S] second. *)
Lemma upsert_two_entities_order (S N : Entity.t) (ua : UserAgentType)
    (w : World) :
  create_missing_related_entities port_app_config = false ->
  (forall l, Permutation (order_by_entities_dependencies l) l) ->
  Entity.is_using_search_identifier S = true ->
  Entity.is_using_search_identifier N = false ->
  (forall e, never_raises (upsert_entity port_client e options ua false)) ->
  upserted_one_by_one (calls_of (upsert' [S; N] ua w)) = [N; S].
Proof.
  intros Hoff Hperm HS HN Hok.
  rewrite (upsert_writes_all [S; N] ua w Hoff Hok). simpl.
  rewrite HS, HN. simpl.
  assert (Hone : order_by_entities_dependencies [N] = [N])
    by (apply Permutation_length_1_inv, Permutation_sym, Hperm).
  now rewrite Hone.
Qed.

(** ** The composition of [apply_diff] and [delete_diff] *)

(** C3.  [apply_diff] hands [created + modified] of the diff, in that order,
    to [upsert].  When [upsert] returns the entities it wrote, the deletion
    guard runs next, in the world [upsert] left, with the references of the
    deleted entities as candidates and the references of exactly the written
    entities as protect set: an entity whose write failed is not in what
    [upsert] returns, so it is not protected.  The only lookup of related
    entities in the trace is the one on these references, and there is none
    when nothing was deleted.  When [upsert] raises, so does [apply_diff]. *)
Theorem apply_diff_upserts_kept_and_protects_written (entities : EntityDiff)
    (ua : UserAgentType) (w : World) :
  let diff := get_port_diff (before entities) (after entities) in
  let upserted := upsert' (created diff ++ modified diff) ua w in
  match result_of upserted with
  | Returned written =>
      let guarded :=
        safe_delete' (map EntityRef.from_entity (deleted diff))
          (map EntityRef.from_entity written) ua (world_of upserted) in
      apply_diff' entities ua w
      = (result_of guarded, world_of guarded,
         calls_of upserted ++ calls_of guarded)
      /\ List.filter is_lookup_call (calls_of (apply_diff' entities ua w))
         = match deleted diff with
           | [] => []
           | _ :: _ =>
               [CallGetRelatedEntitiesRefs
                  (map EntityRef.from_entity written)]
           end
  | Raised e =>
      apply_diff' entities ua w = (Raised e, world_of upserted, calls_of upserted)
  end.
Proof.
  cbv zeta.
  set (diff := get_port_diff (before entities) (after entities)).
  destruct (result_of (upsert' (created diff ++ modified diff) ua w))
    as [written|e] eqn:Hr.
  - assert (Hrun := bind_returned
      (upsert' (created diff ++ modified diff) ua)
      (fun modified_entities =>
         safe_delete' (map EntityRef.from_entity (deleted diff))
           (map EntityRef.from_entity modified_entities) ua) w written Hr).
    unfold apply_diff. fold diff. cbv zeta. rewrite Hrun.
    split; [reflexivity|].
    unfold calls_of at 1; simpl.
    rewrite List.filter_app, upsert_never_looks_up, safe_delete_lookups.
    simpl. now destruct (deleted diff).
  - unfold apply_diff. fold diff. cbv zeta.
    now rewrite (bind_raised _ _ _ _ Hr).
Qed.

(** C7.  When the diff of the references has nothing deleted, [delete_diff]
    returns at once: no call is issued, neither a lookup nor a delete, and the
    remote world is left as it is.  Otherwise [delete_diff] is the deletion
    guard run with the deleted references of the diff as candidates and
    [created + modified] of the diff as protect set, and its one lookup is on
    that protect set. *)
Theorem delete_diff_noop_or_guard (entities : EntityRefDiff)
    (ua : UserAgentType) (w : World) :
  let diff := get_port_ref_diff (ref_before entities) (ref_after entities) in
  delete_diff' entities ua w
  = match deleted diff with
    | [] => (Returned tt, w, [])
    | _ :: _ =>
        safe_delete' (deleted diff) (created diff ++ modified diff) ua w
    end
  /\ List.filter is_lookup_call (calls_of (delete_diff' entities ua w))
     = match deleted diff with
       | [] => []
       | _ :: _ => [CallGetRelatedEntitiesRefs (created diff ++ modified diff)]
       end.
Proof.
  cbv zeta. unfold delete_diff.
  set (diff := get_port_ref_diff (ref_before entities) (ref_after entities)).
  destruct (deleted diff) as [|E rest] eqn:Hdeleted.
  - now split.
  - split; [reflexivity|]. now rewrite safe_delete_lookups.
Qed.

(** ** Fault tolerance *)

Lemma upsert_result (entities : list Entity.t) (ua : UserAgentType)
    (w : World) :
  (forall e, never_raises (upsert_entity port_client e options ua false)) ->
  result_of (upsert' entities ua w)
  = if create_missing_related_entities port_app_config
    then fst (batch_upsert_entities port_client entities options ua false w)
    else Returned
           (omap id
              (upsert_answers'
                 (rev (List.filter Entity.is_using_search_identifier entities
                       ++ order_by_entities_dependencies
                            (List.filter
                               (fun e =>
                                  negb (Entity.is_using_search_identifier e))
                               entities)))
                 ua w)).
Proof.
  intros Hok. unfold upsert.
  destruct (create_missing_related_entities port_app_config).
  - now rewrite remote_run.
  - rewrite partition_by_search_identifier_filter. simpl.
    set (ordered := rev _).
    now destruct (upsert_each_run ordered [] ua w Hok) as (-> & _ & _).
Qed.

Lemma upsert_returns (entities : list Entity.t) (ua : UserAgentType)
    (w : World) :
  honours_should_raise port_client ->
  exists written, result_of (upsert' entities ua w) = Returned written.
Proof.
  intros (Hbatch & Hone & _ & _).
  rewrite upsert_result by (intros e; apply Hone).
  destruct (create_missing_related_entities port_app_config).
  - apply Hbatch.
  - eauto.
Qed.

Lemma delete_returns (refs : list EntityRef.t) (ua : UserAgentType)
    (w : World) :
  honours_should_raise port_client ->
  result_of (delete' refs ua w) = Returned tt.
Proof.
  intros (_ & _ & Hbatch & Hone). unfold delete.
  destruct (delete_dependent_entities port_app_config).
  - rewrite remote_run. unfold result_of; simpl.
    destruct (Hbatch refs options ua w) as [[] ->]. reflexivity.
  - now destruct (delete_each_run
                    (order_by_entities_ref_dependencies refs) ua w
                    (fun ref => Hone ref options ua)).
Qed.

Lemma safe_delete_raises_from_lookup (candidates keep : list EntityRef.t)
    (ua : UserAgentType) (w : World) (e : Exn) :
  honours_should_raise port_client ->
  result_of (safe_delete' candidates keep ua w) = Raised e ->
  fst (get_related_entities_refs keep w) = Raised e.
Proof.
  intros Hok. unfold _safe_delete.
  destruct candidates as [|E rest]; [discriminate|].
  set (m := remote _ _).
  assert (Hm : result_of (m w) = fst (get_related_entities_refs keep w)).
  { subst m. now rewrite remote_run. }
  destruct (result_of (m w)) as [related|x] eqn:Hr.
  - rewrite (bind_returned _ _ _ _ Hr). unfold result_of at 1; simpl.
    rewrite delete_returns by exact Hok. discriminate.
  - rewrite (bind_raised _ _ _ _ Hr). unfold result_of at 1; simpl.
    intros [= ->]. now rewrite <- Hm.
Qed.

(** C6.  Every call to the remote store that [apply_diff] and [delete_diff]
    issue (batched and per-item write, batched and per-item delete) carries
    [should_raise=False].  With a client that keeps its promise for
    [should_raise=False], [upsert] and [delete] never raise; the per-item
    writes that failed are left out of what [upsert] returns, which is the
    list of the entities the client answered, in call order; and
    [apply_diff] and [delete_diff] raise only what the lookup of the related
    entities, which has no such flag, raised. *)
Theorem applier_is_fault_tolerant (entities : EntityDiff)
    (ref_entities : EntityRefDiff) (kept : list Entity.t)
    (refs : list EntityRef.t) (ua : UserAgentType) (w : World) :
  honours_should_raise port_client ->
  Forall fault_tolerant (calls_of (apply_diff' entities ua w))
  /\ Forall fault_tolerant (calls_of (delete_diff' ref_entities ua w))
  /\ (exists written, result_of (upsert' kept ua w) = Returned written)
  /\ (create_missing_related_entities port_app_config = false ->
      result_of (upsert' kept ua w)
      = Returned
          (omap id
             (upsert_answers'
                (rev (List.filter Entity.is_using_search_identifier kept
                      ++ order_by_entities_dependencies
                           (List.filter
                              (fun e =>
                                 negb (Entity.is_using_search_identifier e))
                              kept)))
                ua w)))
  /\ result_of (delete' refs ua w) = Returned tt
  /\ (forall e, result_of (apply_diff' entities ua w) = Raised e ->
        exists protect w', fst (get_related_entities_refs protect w') = Raised e)
  /\ (forall e, result_of (delete_diff' ref_entities ua w) = Raised e ->
        exists protect w', fst (get_related_entities_refs protect w') = Raised e).
Proof.
  intros Hok.
  assert (Hflag_safe : forall candidates keep w',
            Forall fault_tolerant
              (calls_of (safe_delete' candidates keep ua w'))).
  { intros. apply safe_delete_calls_shape; intros; discriminate. }
  split.
  { unfold apply_diff. apply calls_of_bind_Forall.
    - apply upsert_calls_shape; intros; discriminate.
    - intros written w'. apply Hflag_safe. }
  split.
  { unfold delete_diff.
    destruct (deleted _); [constructor | apply Hflag_safe]. }
  split; [now apply upsert_returns|].
  split.
  { intros Hoff. destruct Hok as (_ & Hone & _).
    rewrite upsert_result by (intros e; apply Hone). now rewrite Hoff. }
  split; [now apply delete_returns|].
  split.
  - intros e. unfold apply_diff.
    set (kept' := created _ ++ modified _).
    destruct (upsert_returns kept' ua w Hok) as [written Hr].
    rewrite (bind_returned _ _ _ _ Hr). unfold result_of at 1; simpl.
    intros Hraised. eexists _, _.
    eapply safe_delete_raises_from_lookup; eassumption.
  - intros e. unfold delete_diff.
    destruct (deleted _); [discriminate|].
    intros Hraised. eexists _, _.
    eapply safe_delete_raises_from_lookup; eassumption.
Qed.

End ApplierFacts.

(** * The applier on the catalog *)

Lemma catalog_honours_should_raise : honours_should_raise Catalog.client.
Proof.
  repeat split; intros; intro w; simpl.
  - unfold Catalog.upsert_batch. simpl. eauto.
  - unfold Catalog.upsert_one. destruct (Catalog.accepts _); simpl; eauto.
  - unfold Catalog.delete_batch. simpl. eauto.
  - unfold Catalog.delete_one. simpl. eauto.
Qed.

(** C2 as stated fails: for a search-identifier entity [S] and another entity
    [N] the writes are issued for [N] first and [S] second, so the
    search-identifier entity is not ahead of the other one. *)
Lemma upsert_search_identifier_not_first :
  ~ search_identifier_first
      (upserted_one_by_one
         (calls_of
            (upsert Catalog.client (Catalog.config false false)
               Catalog.input_order
               [Catalog.service "S" true; Catalog.service "N" false]
               "exporter" []))).
Proof.
  match goal with
  | |- ~ search_identifier_first ?t =>
      let v := eval vm_compute in t in change t with v
  end.
  intros (searched & others & Heq & Hsearched & Hothers).
  destruct searched as [|s searched]; simpl in Heq.
  - subst others. inversion Hothers as [|? ? _ Hrest]; subst.
    inversion Hrest as [|? ? Hflag _]; subst. discriminate Hflag.
  - injection Heq as <- _. inversion Hsearched as [|? ? Hflag _]; subst.
    discriminate Hflag.
Qed.

Lemma upsert_search_identifier_written_last_witness :
  let entities := [Catalog.service "S" true; Catalog.service "N" false;
                   Catalog.service "M" false] in
  let writes :=
    upserted_one_by_one
      (calls_of
         (upsert Catalog.client (Catalog.config false false)
            Catalog.input_order entities "exporter" [])) in
  writes = [Catalog.service "M" false; Catalog.service "N" false;
            Catalog.service "S" true]
  /\ search_identifier_last writes.
Proof.
  cbv zeta. split; [reflexivity|].
  apply (upsert_search_identifier_written_last Catalog.client
           (Catalog.config false false) Catalog.input_order
           [Catalog.service "S" true; Catalog.service "N" false;
            Catalog.service "M" false] "exporter" []).
  - reflexivity.
  - intros l e He. exact He.
Defined.

Lemma upsert_batched_witness :
  upsert Catalog.client (Catalog.config true false) Catalog.input_order
    [Catalog.service "B" false; Catalog.service "" false;
     Catalog.service "A" true] "exporter" []
  = (Returned [Catalog.service "B" false; Catalog.service "A" true],
     [Catalog.service "B" false; Catalog.service "A" true],
     [CallBatchUpsertEntities
        [Catalog.service "B" false; Catalog.service "" false;
         Catalog.service "A" true] tt "exporter" false]).
Proof.
  apply (upsert_batched Catalog.client (Catalog.config true false)
           Catalog.input_order
           [Catalog.service "B" false; Catalog.service "" false;
            Catalog.service "A" true] "exporter" []).
  reflexivity.
Defined.

Lemma delete_calls_witness :
  let refs := [EntityRef.mk "B" "service"; EntityRef.mk "A" "service"] in
  calls_of (delete Catalog.client (Catalog.config false true)
              Catalog.input_order refs "exporter" [])
  = [CallBatchDeleteEntities refs tt "exporter" false]
  /\ calls_of (delete Catalog.client (Catalog.config false false)
                 Catalog.input_order refs "exporter" [])
     = [CallDeleteEntity (EntityRef.mk "B" "service") tt "exporter" false;
        CallDeleteEntity (EntityRef.mk "A" "service") tt "exporter" false].
Proof.
  cbv zeta. split.
  - apply (delete_calls Catalog.client (Catalog.config false true)
             Catalog.input_order
             [EntityRef.mk "B" "service"; EntityRef.mk "A" "service"]
             "exporter" []).
    intros ref w. exists tt. reflexivity.
  - apply (delete_calls Catalog.client (Catalog.config false false)
             Catalog.input_order
             [EntityRef.mk "B" "service"; EntityRef.mk "A" "service"]
             "exporter" []).
    intros ref w. exists tt. reflexivity.
Defined.

Lemma applier_is_fault_tolerant_witness :
  let entities :=
    mkEntityDiff [Catalog.service "old" false; Catalog.service "A" false]
                 [Catalog.service "A" false; Catalog.service "" false;
                  Catalog.service "B" true] in
  Forall fault_tolerant
    (calls_of
       (apply_diff Catalog.client (Catalog.config false false)
          Catalog.related_entity_refs Catalog.input_order
          Catalog.input_order spec_get_port_diff entities "exporter"
          [Catalog.service "old" false; Catalog.service "A" false]))
  /\ result_of
       (upsert Catalog.client (Catalog.config false false)
          Catalog.input_order
          [Catalog.service "A" false; Catalog.service "" false;
           Catalog.service "B" true]
          "exporter"
          [Catalog.service "old" false; Catalog.service "A" false])
     = Returned [Catalog.service "A" false; Catalog.service "B" true].
Proof.
  cbv zeta.
  pose proof (applier_is_fault_tolerant Catalog.client
                (Catalog.config false false) Catalog.related_entity_refs
                Catalog.input_order Catalog.input_order spec_get_port_diff
                spec_get_port_ref_diff
                (mkEntityDiff
                   [Catalog.service "old" false; Catalog.service "A" false]
                   [Catalog.service "A" false; Catalog.service "" false;
                    Catalog.service "B" true])
                (mkEntityRefDiff [] [])
                [Catalog.service "A" false; Catalog.service "" false;
                 Catalog.service "B" true]
                [] "exporter"
                [Catalog.service "old" false; Catalog.service "A" false]
                catalog_honours_should_raise)
    as (Hflags & _ & _ & Hwritten & _).
  split; [exact Hflags|].
  rewrite (Hwritten eq_refl). reflexivity.
Defined.

(** The scenarios of section 8 of the specification. *)

Example scenario_create_one :
  calls_of
    (apply_diff Catalog.client (Catalog.config false false)
       Catalog.related_entity_refs Catalog.input_order Catalog.input_order
       spec_get_port_diff
       (mkEntityDiff [] [Catalog.service "A" false]) "exporter" [])
  = [CallUpsertEntity (Catalog.service "A" false) tt "exporter" false].
Proof. reflexivity. Qed.

Example scenario_related_candidate :
  let X := EntityRef.mk "X" "service" in
  let Y := EntityRef.mk "Y" "service" in
  allowed_entities_to_delete true [X] [Y] [X] = []
  /\ allowed_entities_to_delete false [X] [Y] [X] = [X].
Proof. split; reflexivity. Qed.

(** A candidate that is in the protect set and is related to it is deleted
    when the policy is disabled: [X] is stored with a relation to itself, and
    [_safe_delete] is asked to delete [X] while protecting [X]. *)
Example scenario_protected_and_related :
  let X := EntityRef.mk "X" "service" in
  calls_of
    (_safe_delete Catalog.client (Catalog.config false false)
       Catalog.related_entity_refs Catalog.input_order [X] [X] "exporter"
       [Entity.mk "X" "service" [("service", ["X"])] [] false])
  = [CallGetRelatedEntitiesRefs [X];
     CallDeleteEntity X tt "exporter" false].
Proof. reflexivity. Qed.

(** A write that fails leaves its entity out of the protect set: the entity
    with the empty identifier is refused by the catalog, and the lookup of the
    related entities is on the references of the two entities written. *)
Example scenario_failed_write_is_not_protected :
  List.filter is_lookup_call
    (calls_of
       (apply_diff Catalog.client (Catalog.config false false)
          Catalog.related_entity_refs Catalog.input_order Catalog.input_order
          spec_get_port_diff
          (mkEntityDiff
             [Catalog.service "old" false; Catalog.service "A" false]
             [Catalog.service "A" false; Catalog.service "" false;
              Catalog.service "B" true])
          "exporter"
          [Catalog.service "old" false; Catalog.service "A" false]))
  = [CallGetRelatedEntitiesRefs
       [EntityRef.mk "A" "service"; EntityRef.mk "B" "service"]].
Proof. reflexivity. Qed.

(** * Properties of the Kafka ingestion loop *)

Section ConsumerFacts.

Import Kafka.

Context {Broker Payload : Type}.
Variable consumer_subscribe : list string -> Broker -> outcome unit * Broker.
Variable consumer_poll : Broker -> outcome (option Message) * Broker.
Variable consumer_commit : Broker -> outcome unit * Broker.
Variable consumer_close : Broker -> outcome unit * Broker.
Variable msg_process : Payload -> string -> Broker -> outcome unit * Broker.
Variable json_loads : string -> outcome Payload.
Variable org_id : option string.

Local Abbreviation turn' :=
  (turn consumer_poll consumer_commit consumer_close msg_process json_loads).
Local Abbreviation poll_loop' :=
  (poll_loop consumer_poll consumer_commit consumer_close msg_process
     json_loads).
Local Abbreviation start' :=
  (start consumer_subscribe consumer_poll consumer_commit consumer_close
     msg_process json_loads org_id).
Local Abbreviation exit_gracefully' :=
  (@exit_gracefully Broker Payload consumer_close).
Local Abbreviation Trace := (list (@Event Payload)).
Local Abbreviation phase_from :=
  (fold_left (@phase_step Payload)).

Lemma Message_eqb_refl (msg : Message) : Message_eqb msg msg = true.
Proof.
  unfold Message_eqb. rewrite !String.eqb_refl, !Nat.eqb_refl. simpl.
  destruct (error msg); [apply String.eqb_refl | reflexivity].
Qed.

Ltac run_turn :=
  unfold turn, deliver, exit_gracefully, _handle_message, try_except,
    try_finally, bind, observe, emit, ret, raise, set_running, of_outcome,
    on_broker;
  repeat (simpl;
          match goal with
          | |- context [match ?x with _ => _ end] =>
              lazymatch x with
              | context [match _ with _ => _ end] => fail
              | _ => destruct x eqn:?
              end
          end);
  simpl;
  repeat match goal with u : unit |- _ => destruct u end.

(** A turn of the loop never raises: what goes wrong in it is logged. *)
Lemma turn_returns (signal : option SignalPoint) (st : @State Broker) :
  result_of (turn' signal st) = Returned tt.
Proof.
  unfold result_of. destruct signal as [[]|]; run_turn; reflexivity.
Qed.

(** A turn keeps the records in order, from whatever phase it starts. *)
Lemma turn_phase (signal : option SignalPoint) (st : @State Broker)
    (ph : Phase) :
  exists ph', phase_from (calls_of (turn' signal st)) (Some ph) = Some ph'.
Proof.
  unfold calls_of. destruct signal as [[]|]; run_turn;
    try match goal with
        | H : Message_eqb ?m ?m = false |- _ =>
            rewrite Message_eqb_refl in H; discriminate H
        end;
    eauto.
Qed.

(** The handler clears [running], and nothing in a turn sets it again. *)
Lemma turn_signalled (st : @State Broker) :
  running (world_of (turn' (Some BeforePoll) st)) = false.
Proof. unfold world_of. run_turn; reflexivity. Qed.

Lemma phase_from_violated (trace : Trace) : phase_from trace None = None.
Proof. induction trace as [|ev trace IH]; [reflexivity | exact IH]. Qed.

(** In a trace whose records are in order, a commit finds the attempt on the
    current message completed. *)
Lemma commit_in_ordered_trace (pre post : Trace) (r : outcome unit)
    (start_phase : option Phase) (end_phase : Phase) :
  phase_from (pre ++ Commit r :: post) start_phase = Some end_phase ->
  exists msg, phase_from pre start_phase = Some (Completed msg).
Proof.
  rewrite fold_left_app. simpl.
  destruct (phase_from pre start_phase) as [[| | |msg]|]; simpl;
    rewrite ?phase_from_violated; try discriminate.
  intros _. now exists msg.
Qed.

Lemma poll_loop_step (signal : option SignalPoint)
    (rest : list (option SignalPoint)) (st : @State Broker) :
  running st = true ->
  poll_loop' (signal :: rest) st
  = (result_of (poll_loop' rest (world_of (turn' signal st))),
     world_of (poll_loop' rest (world_of (turn' signal st))),
     calls_of (turn' signal st)
     ++ calls_of (poll_loop' rest (world_of (turn' signal st)))).
Proof.
  intros Hrun. simpl. rewrite Hrun.
  apply (bind_returned (turn' signal)
           (fun _ => poll_loop' rest) st tt (turn_returns signal st)).
Qed.

Lemma poll_loop_not_running (schedule : list (option SignalPoint))
    (st : @State Broker) :
  running st = false -> poll_loop' schedule st = (Returned Stopped, st, []).
Proof. intros Hstop. destruct schedule; simpl; now rewrite Hstop. Qed.

(** The loop never raises, and it is left only with [running] cleared. *)
Lemma poll_loop_returns (schedule : list (option SignalPoint))
    (st : @State Broker) :
  exists how, result_of (poll_loop' schedule st) = Returned how.
Proof.
  revert st. induction schedule as [|signal rest IH]; intros st;
    destruct (running st) eqn:Hrun.
  - simpl. rewrite Hrun. now exists StillRunning.
  - rewrite poll_loop_not_running by exact Hrun. now exists Stopped.
  - rewrite poll_loop_step by exact Hrun. apply IH.
  - rewrite poll_loop_not_running by exact Hrun. now exists Stopped.
Qed.

Lemma poll_loop_phase (schedule : list (option SignalPoint))
    (st : @State Broker) (ph : Phase) :
  exists ph', phase_from (calls_of (poll_loop' schedule st)) (Some ph) = Some ph'.
Proof.
  revert st ph. induction schedule as [|signal rest IH]; intros st ph;
    destruct (running st) eqn:Hrun.
  - simpl. rewrite Hrun. now exists ph.
  - rewrite poll_loop_not_running by exact Hrun. now exists ph.
  - rewrite poll_loop_step by exact Hrun. unfold calls_of at 1; simpl.
    rewrite fold_left_app.
    destruct (turn_phase signal st ph) as [ph1 ->]. apply IH.
  - rewrite poll_loop_not_running by exact Hrun. now exists ph.
Qed.

(** A signal that arrives ahead of a poll makes the loop stop. *)
Lemma poll_loop_stops (schedule : list (option SignalPoint))
    (st : @State Broker) :
  In (Some BeforePoll) schedule ->
  result_of (poll_loop' schedule st) = Returned Stopped.
Proof.
  revert st. induction schedule as [|signal rest IH]; intros st Hin;
    [destruct Hin|].
  destruct (running st) eqn:Hrun.
  - rewrite poll_loop_step by exact Hrun. unfold result_of at 1; simpl.
    destruct Hin as [-> | Hin].
    + now rewrite poll_loop_not_running by apply turn_signalled.
    + now apply IH.
  - now rewrite poll_loop_not_running by exact Hrun.
Qed.

(** The trace of [start]: the subscription, the turns of the loop, and the
    closing of the consumer unless the loop is still polling. *)
Lemma start_trace (schedule : list (option SignalPoint)) (st : @State Broker) :
  exists (subscribed : outcome unit) (turns : Trace)
         (closing : list (outcome unit)),
    calls_of (start' schedule st)
    = Subscribe (topics org_id) subscribed :: turns ++ map Close closing
    /\ (forall ph, exists ph', phase_from turns (Some ph) = Some ph')
    /\ (closing = []
        \/ exists closed, closing = [closed]
                          /\ result_of (start' schedule st)
                             <> Returned StillRunning)
    /\ (closing = [] -> result_of (start' schedule st) = Returned StillRunning)
    /\ (In (Some BeforePoll) schedule -> closing <> []).
Proof.
  unfold start, bind, observe, set_running, on_broker.
  destruct (consumer_subscribe (topics org_id) (broker st))
    as [subscribed b] eqn:Hsub.
  destruct subscribed as [[]|e]; simpl.
  - set (st1 := {| running := true; broker := b |}).
    destruct (poll_loop_returns schedule st1) as [how Hhow].
    pose proof (poll_loop_phase schedule st1) as Hphase.
    pose proof (poll_loop_stops schedule st1) as Hstops.
    destruct (poll_loop' schedule st1) as [[r st2] turns].
    unfold result_of, calls_of in *; simpl in *. subst r.
    destruct how; simpl.
    + destruct (consumer_close (broker st2)) as [closed b'].
      exists (Returned tt), turns, [closed].
      destruct closed as [[]|e]; simpl;
        (split; [reflexivity|]); (split; [exact Hphase|]);
        (split; [right; eexists; split; [reflexivity | discriminate]|]);
        split; discriminate.
    + exists (Returned tt), turns, []. simpl. rewrite app_nil_r.
      split; [reflexivity|]. split; [exact Hphase|].
      split; [now left|]. split; [reflexivity|].
      intros Hin. specialize (Hstops Hin). discriminate.
  - destruct (consumer_close b) as [closed b'].
    exists (Raised e), [], [closed].
    destruct closed as [[]|e']; simpl;
      (split; [reflexivity|]); (split; [intros ph; now exists ph|]);
      (split; [right; eexists; split; [reflexivity | discriminate]|]);
      split; discriminate.
Qed.

(** ** What the phases say about the trace *)

Lemma phase_reading_holds (trace : Trace) (ph : Phase) :
  phase_from trace (Some Idle) = Some ph -> phase_reading trace ph.
Proof.
  revert ph. induction trace as [|ev trace IH] using rev_ind; intros ph.
  - simpl. now intros [= <-].
  - rewrite fold_left_app. simpl.
    destruct (phase_from trace (Some Idle)) as [before|]; [|discriminate].
    specialize (IH before eq_refl).
    assert (Hquiet : is_commit ev = false ->
                     phase_reading trace before ->
                     phase_reading (trace ++ [ev]) before).
    { intros Hev. destruct before; simpl; auto.
      - intros (a & b & -> & Hb). exists a, (b ++ [ev]).
        split; [now rewrite <- app_assoc|].
        apply Forall_app. split; [exact Hb | now constructor].
      - intros (a & b & done & c & -> & Hdone & Hc).
        exists a, b, done, (c ++ [ev]).
        split; [now repeat (rewrite <- app_assoc; simpl)|].
        split; [exact Hdone|].
        change (b ++ done :: c ++ [ev]) with (b ++ (done :: c) ++ [ev]).
        rewrite app_assoc. apply Forall_app. split; [exact Hc | now constructor]. }
    assert (Hdone : is_completion ev = true ->
                    forall msg, before = Attempting msg ->
                    phase_reading (trace ++ [ev]) (Completed msg)).
    { intros Hev msg ->. destruct IH as (a & b & -> & Hb).
      exists a, b, ev, []. split; [now rewrite <- app_assoc|].
      split; [exact Hev|]. apply Forall_app. split; [exact Hb|].
      constructor; [|constructor]. now destruct ev as [| | |? ? []| | | | | |]. }
    destruct ev as [ts r|[[m|]|e]|m|p t [[]|e]|e|m e|r|e| |r]; simpl;
      try (intros [= <-]; now apply Hquiet);
      try (intros [= <-]; exact I);
      try (destruct before; intros [= <-];
           solve [ now apply Hquiet | now eapply Hdone | exact I ]).
    destruct before as [|polled| |]; try discriminate.
    destruct (Message_eqb polled m); intros [= <-].
    exists trace, []. split; [reflexivity | constructor].
Qed.


End ConsumerFacts.

(** * The loop on a queue of four messages

    The first message is processed, the callback fails on the second, the
    body of the third does not decode, the fourth carries a broker error.  The
    first three are committed, each after its attempt ended; the fourth is
    neither processed nor committed.  The signal of the sixth turn stops the
    loop, and the consumer is closed by the handler and again on the way out
    of [start]. *)
Example kafka_run :
  let m1 := Kafka.mkMessage "hello" "org.runs" 0 1 None in
  let m2 := Kafka.mkMessage "boom" "org.runs" 0 2 None in
  let m3 := Kafka.mkMessage "" "org.runs" 0 3 None in
  let m4 := Kafka.mkMessage "x" "org.runs" 0 4 (Some "broker error") in
  calls_of
    (Kafka.demo_start
       [None; None; None; None; None; Some Kafka.BeforePoll; None]
       (Kafka.mkState false (Kafka.mkQueue [m1; m2; m3; m4] [] [] false)))
  = [Kafka.Subscribe ["org.runs"; "org.change.log"] (Returned tt);
     Kafka.Poll (Returned (Some m1));
     Kafka.LogProcessMessage m1;
     Kafka.MsgProcess "hello" "org.runs" (Returned tt);
     Kafka.Commit (Returned tt);
     Kafka.Poll (Returned (Some m2));
     Kafka.LogProcessMessage m2;
     Kafka.MsgProcess "boom" "org.runs" (Raised "cannot process");
     Kafka.LogFailedToProcess "cannot process";
     Kafka.Commit (Returned tt);
     Kafka.Poll (Returned (Some m3));
     Kafka.LogProcessMessage m3;
     Kafka.LogFailedProcessMessage m3 "Expecting value";
     Kafka.Commit (Returned tt);
     Kafka.Poll (Returned (Some m4));
     Kafka.LogError "broker error";
     Kafka.Poll (Returned None);
     Kafka.LogExitingGracefully;
     Kafka.Close (Returned tt);
     Kafka.Poll (Raised "Consumer closed");
     Kafka.LogError "Consumer closed";
     Kafka.Close (Raised "Consumer already closed")].
Proof. reflexivity. Qed.

(** * Further properties of the applier *)

Section ApplierOrder.

Context {World RequestOptions UserAgentType : Type}.
Variable port_client : PortClient World RequestOptions UserAgentType.
Variable port_app_config : PortAppConfig RequestOptions.
Variable get_related_entities_refs :
  list EntityRef.t -> World -> outcome (list EntityRef.t) * World.
Variable order_by_entities_dependencies : list Entity.t -> list Entity.t.
Variable order_by_entities_ref_dependencies :
  list EntityRef.t -> list EntityRef.t.
Variable get_port_diff :
  list Entity.t -> list Entity.t -> EntityPortDiff Entity.t.
Variable get_port_ref_diff :
  list EntityRef.t -> list EntityRef.t -> EntityPortDiff EntityRef.t.

Local Abbreviation options := (get_port_request_options port_app_config).
Local Abbreviation delete_each' := (delete_each port_client port_app_config).
Local Abbreviation delete' :=
  (delete port_client port_app_config order_by_entities_ref_dependencies).
Local Abbreviation upsert_each' := (upsert_each port_client port_app_config).
Local Abbreviation upsert_answers' :=
  (upsert_answers port_client port_app_config).
Local Abbreviation upsert' :=
  (upsert port_client port_app_config order_by_entities_dependencies).
Local Abbreviation safe_delete' :=
  (_safe_delete port_client port_app_config get_related_entities_refs
     order_by_entities_ref_dependencies).
Local Abbreviation apply_diff' :=
  (apply_diff port_client port_app_config get_related_entities_refs
     order_by_entities_dependencies order_by_entities_ref_dependencies
     get_port_diff).
Local Abbreviation delete_diff' :=
  (delete_diff port_client port_app_config get_related_entities_refs
     order_by_entities_ref_dependencies get_port_ref_diff).
Local Abbreviation Trace := (list (Call RequestOptions UserAgentType)).

(** ** The shape of a trace *)

Lemma safe_delete_trace (candidates keep : list EntityRef.t)
    (ua : UserAgentType) (w : World) :
  calls_of (safe_delete' candidates keep ua w) = []
  \/ exists deletes : Trace,
       calls_of (safe_delete' candidates keep ua w)
       = CallGetRelatedEntitiesRefs keep :: deletes
       /\ Forall (fun c => is_delete_call c = true) deletes.
Proof.
  unfold _safe_delete. destruct candidates as [|E rest]; [now left|]. right.
  set (m := remote _ _).
  assert (Hm : calls_of (m w) = [CallGetRelatedEntitiesRefs keep]).
  { subst m. now rewrite remote_run. }
  destruct (result_of (m w)) as [related|e] eqn:Hr.
  - rewrite (bind_returned _ _ _ _ Hr). unfold calls_of at 1; simpl.
    rewrite Hm. simpl. eexists. split; [reflexivity|].
    apply delete_calls_shape; reflexivity.
  - rewrite (bind_raised _ _ _ _ Hr). unfold calls_of at 1; simpl.
    rewrite Hm. exists []. split; [reflexivity | constructor].
Qed.

Lemma apply_diff_trace (entities : EntityDiff) (ua : UserAgentType)
    (w : World) :
  exists (written : list Entity.t) (w' : World),
    calls_of (apply_diff' entities ua w)
    = calls_of
        (upsert'
           (created (get_port_diff (before entities) (after entities))
            ++ modified (get_port_diff (before entities) (after entities)))
           ua w)
      ++ calls_of
           (safe_delete'
              (map EntityRef.from_entity
                 (deleted (get_port_diff (before entities) (after entities))))
              (map EntityRef.from_entity written) ua w')
    \/ calls_of (apply_diff' entities ua w)
       = calls_of
           (upsert'
              (created (get_port_diff (before entities) (after entities))
               ++ modified (get_port_diff (before entities) (after entities)))
              ua w).
Proof.
  unfold apply_diff.
  set (kept := created _ ++ modified _).
  destruct (result_of (upsert' kept ua w)) as [written|e] eqn:Hr.
  - exists written, (world_of (upsert' kept ua w)). left.
    now rewrite (bind_returned _ _ _ _ Hr).
  - exists [], w. right. now rewrite (bind_raised _ _ _ _ Hr).
Qed.

(** X1.  In the trace of [apply_diff] the writes come first: the trace is a
    run of write calls followed by nothing, or by one lookup of the related
    entities and then delete calls only.  No entity is written once the
    lookup or a delete has been issued. *)
Theorem apply_diff_writes_before_deletes (entities : EntityDiff)
    (ua : UserAgentType) (w : World) :
  exists writes rest : Trace,
    calls_of (apply_diff' entities ua w) = writes ++ rest
    /\ Forall (fun c => is_write_call c = true) writes
    /\ (rest = []
        \/ exists keep deletes,
             rest = CallGetRelatedEntitiesRefs keep :: deletes
             /\ Forall (fun c => is_delete_call c = true) deletes).
Proof.
  destruct (apply_diff_trace entities ua w) as (written & w' & [-> | ->]).
  - eexists _, _. split; [reflexivity|]. split.
    + apply upsert_calls_shape; reflexivity.
    + destruct (safe_delete_trace
                  (map EntityRef.from_entity
                     (deleted (get_port_diff (before entities)
                                 (after entities))))
                  (map EntityRef.from_entity written) ua w')
        as [-> | (deletes & -> & Hdeletes)]; [now left|].
      right. now exists (map EntityRef.from_entity written), deletes.
  - eexists _, []. rewrite app_nil_r. split; [reflexivity|]. split.
    + apply upsert_calls_shape; reflexivity.
    + now left.
Qed.

(** X2.  [delete_diff] never writes: its trace is empty, or it is the lookup
    of the entities related to [created + modified] followed by delete calls
    only. *)
Theorem delete_diff_never_writes (entities : EntityRefDiff)
    (ua : UserAgentType) (w : World) :
  let diff := get_port_ref_diff (ref_before entities) (ref_after entities) in
  Forall (fun c => is_write_call c = false) (calls_of (delete_diff' entities ua w))
  /\ (calls_of (delete_diff' entities ua w) = []
      \/ exists deletes : Trace,
           calls_of (delete_diff' entities ua w)
           = CallGetRelatedEntitiesRefs (created diff ++ modified diff)
             :: deletes
           /\ Forall (fun c => is_delete_call c = true) deletes).
Proof.
  cbv zeta. unfold delete_diff.
  set (diff := get_port_ref_diff (ref_before entities) (ref_after entities)).
  destruct (deleted diff) as [|E rest] eqn:Hdeleted.
  - split; [constructor | now left].
  - split.
    + apply safe_delete_calls_shape; reflexivity.
    + destruct (safe_delete_trace (E :: rest) (created diff ++ modified diff)
                  ua w) as [Hnone | Hsome]; [|now right].
      unfold _safe_delete in Hnone.
      set (m := remote _ _) in Hnone.
      destruct (result_of (m w)) as [related|e] eqn:Hr.
      * rewrite (bind_returned _ _ _ _ Hr) in Hnone.
        unfold calls_of at 1 in Hnone; simpl in Hnone.
        subst m. rewrite remote_run in Hnone. discriminate Hnone.
      * rewrite (bind_raised _ _ _ _ Hr) in Hnone.
        unfold calls_of at 1 in Hnone; simpl in Hnone.
        subst m. rewrite remote_run in Hnone. discriminate Hnone.
Qed.

(** X3.  Every call of [apply_diff] and of [delete_diff] that takes request
    options and a user agent carries the options of the configuration and the
    user agent the caller gave. *)
Theorem applier_passes_provenance (entities : EntityDiff)
    (ref_entities : EntityRefDiff) (ua : UserAgentType) (w : World) :
  Forall (fun c => provenance_of c = None
                   \/ provenance_of c = Some (options, ua))
    (calls_of (apply_diff' entities ua w))
  /\ Forall (fun c => provenance_of c = None
                      \/ provenance_of c = Some (options, ua))
       (calls_of (delete_diff' ref_entities ua w)).
Proof.
  assert (Hsafe : forall candidates keep w',
            Forall (fun c => provenance_of c = None
                             \/ provenance_of c = Some (options, ua))
              (calls_of (safe_delete' candidates keep ua w'))).
  { intros. apply safe_delete_calls_shape; intros; simpl; auto. }
  split.
  - unfold apply_diff. apply calls_of_bind_Forall.
    + apply upsert_calls_shape; intros; simpl; auto.
    + intros written w'. apply Hsafe.
  - unfold delete_diff. destruct (deleted _); [constructor | apply Hsafe].
Qed.

(** ** What is deleted *)

Lemma deleted_refs_of_app (t1 t2 : Trace) :
  deleted_refs_of (t1 ++ t2) = deleted_refs_of t1 ++ deleted_refs_of t2.
Proof. unfold deleted_refs_of. apply flat_map_app. Qed.

Lemma deleted_refs_of_deletes (ua : UserAgentType) (refs : list EntityRef.t) :
  deleted_refs_of
    (map (fun ref =>
            @CallDeleteEntity RequestOptions UserAgentType ref options ua false)
       refs)
  = refs.
Proof. induction refs as [|r rest IH]; simpl; [reflexivity | now rewrite IH]. Qed.

Lemma deleted_refs_of_none (t : Trace) :
  Forall (fun c => is_delete_call c = false) t -> deleted_refs_of t = [].
Proof.
  induction 1 as [|c t Hc _ IH]; [reflexivity|]. simpl. rewrite IH.
  now destruct c.
Qed.

Lemma delete_deleted_refs (refs : list EntityRef.t) (ua : UserAgentType)
    (w : World) (r : EntityRef.t) :
  (forall l x, In x (order_by_entities_ref_dependencies l) -> In x l) ->
  In r (deleted_refs_of (calls_of (delete' refs ua w))) -> In r refs.
Proof.
  intros Hmembers. unfold delete.
  destruct (delete_dependent_entities port_app_config).
  - rewrite remote_run. unfold calls_of; simpl. now rewrite app_nil_r.
  - destruct (delete_each_calls_prefix port_client port_app_config
                (order_by_entities_ref_dependencies refs) ua w) as [k Hk].
    intros Hin. apply Hmembers.
    rewrite <- (deleted_refs_of_deletes ua), Hk, deleted_refs_of_app.
    apply in_or_app. now left.
Qed.

Lemma safe_delete_deleted_refs (candidates keep : list EntityRef.t)
    (ua : UserAgentType) (w : World) (r : EntityRef.t) :
  (forall l x, In x (order_by_entities_ref_dependencies l) -> In x l) ->
  In r (deleted_refs_of (calls_of (safe_delete' candidates keep ua w))) ->
  exists related w',
    get_related_entities_refs keep w = (Returned related, w')
    /\ In r (allowed_entities_to_delete
               (create_missing_related_entities port_app_config)
               candidates keep related).
Proof.
  intros Hmembers. unfold _safe_delete.
  destruct candidates as [|E rest]; [intros []|].
  set (m := remote _ _).
  assert (Hm : m w = (fst (get_related_entities_refs keep w),
                      snd (get_related_entities_refs keep w),
                      [CallGetRelatedEntitiesRefs keep])).
  { subst m. apply remote_run. }
  destruct (get_related_entities_refs keep w) as [[related|e] w'] eqn:Hlookup;
    simpl in Hm.
  - rewrite (bind_returned m _ w related) by now rewrite Hm.
    rewrite Hm. unfold calls_of at 1, world_of; simpl.
    intros Hin. exists related, w'. split; [reflexivity|].
    eapply delete_deleted_refs; eassumption.
  - rewrite (bind_raised m _ w e) by now rewrite Hm.
    rewrite Hm. unfold calls_of; simpl. intros [].
Qed.

(** X4.  The applier deletes nothing but what the diff says was deleted: a
    reference named by a delete call of [apply_diff] is the reference of an
    entity in [deleted] of the diff, and one named by a delete call of
    [delete_diff] is in [deleted] of the diff of the references.  The orderer
    of references is taken to return members of its input only. *)
Theorem applier_deletes_only_deleted (entities : EntityDiff)
    (ref_entities : EntityRefDiff) (ua : UserAgentType) (w : World) :
  (forall l x, In x (order_by_entities_ref_dependencies l) -> In x l) ->
  (forall r,
      In r (deleted_refs_of (calls_of (apply_diff' entities ua w))) ->
      In r (map EntityRef.from_entity
              (deleted (get_port_diff (before entities) (after entities)))))
  /\ (forall r,
        In r (deleted_refs_of (calls_of (delete_diff' ref_entities ua w))) ->
        In r (deleted (get_port_ref_diff (ref_before ref_entities)
                         (ref_after ref_entities)))).
Proof.
  intros Hmembers.
  assert (Hsafe : forall candidates keep w' r,
            In r (deleted_refs_of
                    (calls_of (safe_delete' candidates keep ua w'))) ->
            In r candidates).
  { intros candidates keep w' r Hin.
    destruct (safe_delete_deleted_refs candidates keep ua w' r Hmembers Hin)
      as (related & w'' & _ & Hallowed).
    rewrite allowed_is_filter in Hallowed.
    now apply filter_In in Hallowed. }
  split.
  - intros r.
    destruct (apply_diff_trace entities ua w) as (written & w' & [-> | ->]).
    + rewrite deleted_refs_of_app, (deleted_refs_of_none (calls_of (upsert' _ _ _)))
        by (apply upsert_calls_shape; reflexivity).
      apply Hsafe.
    + rewrite deleted_refs_of_none
        by (apply upsert_calls_shape; reflexivity).
      intros [].
  - intros r. unfold delete_diff. destruct (deleted _) as [|E rest] eqn:Hd.
    + intros [].
    + apply Hsafe.
Qed.

(** X5.  With [create_missing_related_entities] enabled, what [_safe_delete]
    deletes is a candidate that matches no entry of the protect set and no
    entity the lookup reported as related to it. *)
Theorem safe_delete_spares_keep_and_related
    (candidates keep related : list EntityRef.t) (ua : UserAgentType)
    (w w' : World) (r : EntityRef.t) :
  create_missing_related_entities port_app_config = true ->
  (forall l x, In x (order_by_entities_ref_dependencies l) -> In x l) ->
  get_related_entities_refs keep w = (Returned related, w') ->
  In r (deleted_refs_of (calls_of (safe_delete' candidates keep ua w))) ->
  In r candidates
  /\ is_part_of_created keep r = false
  /\ is_part_of_related related r = false.
Proof.
  intros Hon Hmembers Hlookup Hin.
  destruct (safe_delete_deleted_refs candidates keep ua w r Hmembers Hin)
    as (related' & w'' & Hlookup' & Hallowed).
  rewrite Hlookup in Hlookup'. injection Hlookup' as <- <-.
  rewrite Hon, allowed_is_filter in Hallowed.
  apply filter_In in Hallowed. destruct Hallowed as [Hcand Hpass].
  unfold guard_passes in Hpass. split; [exact Hcand|].
  destruct (is_part_of_related related r); [discriminate Hpass|].
  split; [now apply negb_true_iff in Hpass | reflexivity].
Qed.

(** ** Empty input *)

(** X6.  With nothing to write or to delete the batched paths still call the
    remote store: [upsert []] issues one [batch_upsert_entities] call carrying
    no entity when [create_missing_related_entities] is enabled, and
    [delete []] one [batch_delete_entities] call carrying no reference when
    [delete_dependent_entities] is enabled; the per-item paths issue no call.
    The orderers are taken to return members of their input only. *)
Theorem empty_input_calls (ua : UserAgentType) (w : World) :
  (forall l x, In x (order_by_entities_dependencies l) -> In x l) ->
  (forall l x, In x (order_by_entities_ref_dependencies l) -> In x l) ->
  calls_of (upsert' [] ua w)
  = (if create_missing_related_entities port_app_config
     then [CallBatchUpsertEntities [] options ua false]
     else [])
  /\ calls_of (delete' [] ua w)
     = (if delete_dependent_entities port_app_config
        then [CallBatchDeleteEntities [] options ua false]
        else []).
Proof.
  intros Hentities Hrefs.
  assert (He : order_by_entities_dependencies [] = []).
  { destruct (order_by_entities_dependencies []) as [|x l] eqn:Hx;
      [reflexivity|].
    destruct (Hentities [] x). rewrite Hx. now left. }
  assert (Hr : order_by_entities_ref_dependencies [] = []).
  { destruct (order_by_entities_ref_dependencies []) as [|x l] eqn:Hx;
      [reflexivity|].
    destruct (Hrefs [] x). rewrite Hx. now left. }
  split.
  - unfold upsert.
    destruct (create_missing_related_entities port_app_config).
    + now rewrite remote_run.
    + simpl. now rewrite He.
  - unfold delete.
    destruct (delete_dependent_entities port_app_config).
    + now rewrite remote_run.
    + now rewrite Hr.
Qed.

(** X7.  In cascade mode ([delete_dependent_entities] enabled) [_safe_delete]
    with candidates to consider and a lookup that answers issues two calls:
    the lookup on the protect set and one batched delete carrying what the
    guard let through, in candidate order, also when that is nothing. *)
Theorem safe_delete_cascade_calls (candidates keep related : list EntityRef.t)
    (ua : UserAgentType) (w w' : World) :
  delete_dependent_entities port_app_config = true ->
  candidates <> [] ->
  get_related_entities_refs keep w = (Returned related, w') ->
  calls_of (safe_delete' candidates keep ua w)
  = [CallGetRelatedEntitiesRefs keep;
     CallBatchDeleteEntities
       (List.filter
          (guard_passes (create_missing_related_entities port_app_config)
             keep related)
          candidates)
       options ua false].
Proof.
  intros Hcascade Hsome Hlookup.
  rewrite (safe_delete_deletes_allowed port_client port_app_config
             get_related_entities_refs order_by_entities_ref_dependencies
             candidates keep related ua w w' Hsome Hlookup).
  unfold calls_of at 1; simpl. unfold delete. rewrite Hcascade.
  now rewrite remote_run, allowed_is_filter.
Qed.

(** ** Every entity is written once *)

Lemma filter_split_permutation {A : Type} (f : A -> bool) (l : list A) :
  Permutation (List.filter f l ++ List.filter (fun x => negb (f x)) l) l.
Proof.
  induction l as [|x l IH]; simpl; [constructor|].
  destruct (f x); simpl.
  - now constructor.
  - apply Permutation_sym, Permutation_cons_app, Permutation_sym, IH.
Qed.

Lemma length_omap_le {A B : Type} (f : A -> option B) (l : list A) :
  length (omap f l) <= length l.
Proof.
  induction l as [|x l IH]; [constructor|].
  cbn. destruct (f x); cbn; [apply le_n_S, IH | apply le_S, IH].
Qed.

(** X8.  In the per-item path ([create_missing_related_entities] disabled),
    with an orderer that returns a permutation of its input and a client that
    does not raise under [should_raise=False], every input entity is written
    by one [upsert_entity] call and by no other call: the entities of the
    write calls are a permutation of the input, there are as many calls as
    entities, and [upsert] returns at most as many entities as it was
    given. *)
Theorem upsert_writes_each_entity_once (entities : list Entity.t)
    (ua : UserAgentType) (w : World) :
  create_missing_related_entities port_app_config = false ->
  (forall l, Permutation (order_by_entities_dependencies l) l) ->
  (forall e, never_raises (upsert_entity port_client e options ua false)) ->
  Permutation (upserted_one_by_one (calls_of (upsert' entities ua w))) entities
  /\ length (calls_of (upsert' entities ua w)) = length entities
  /\ exists written,
       result_of (upsert' entities ua w) = Returned written
       /\ length written <= length entities.
Proof.
  intros Hoff Hperm Hok.
  assert (Hordered :
    Permutation
      (rev (List.filter Entity.is_using_search_identifier entities
            ++ order_by_entities_dependencies
                 (List.filter
                    (fun e => negb (Entity.is_using_search_identifier e))
                    entities)))
      entities).
  { rewrite <- Permutation_rev, Hperm. apply filter_split_permutation. }
  split; [|split].
  - rewrite (upsert_writes_all port_client port_app_config
               order_by_entities_dependencies entities ua w Hoff Hok).
    now rewrite <- rev_app_distr.
  - unfold upsert. rewrite Hoff.
    rewrite partition_by_search_identifier_filter. simpl.
    set (ordered := rev _) in *.
    destruct (upsert_each_run port_client port_app_config ordered [] ua w Hok)
      as (_ & -> & _).
    rewrite length_map. now apply Permutation_length.
  - rewrite (upsert_result port_client port_app_config
               order_by_entities_dependencies entities ua w Hok), Hoff.
    eexists. split; [reflexivity|].
    set (ordered := rev _) in *.
    destruct (upsert_each_run port_client port_app_config ordered [] ua w Hok)
      as (_ & _ & Hanswers).
    etransitivity; [apply length_omap_le|].
    rewrite Hanswers. apply Nat.eq_le_incl. now apply Permutation_length.
Qed.

End ApplierOrder.

(** * Further properties of the deletion guard *)

(** X9.  The deletion guard decides candidate by candidate: what it lets
    through of a concatenation is the concatenation of what it lets through of
    the parts, and running it again on its own output, with the same protect
    set and related entities, changes nothing. *)
Theorem allowed_entities_to_delete_compose (policy : bool)
    (first second keep related : list EntityRef.t) :
  allowed_entities_to_delete policy (first ++ second) keep related
  = allowed_entities_to_delete policy first keep related
    ++ allowed_entities_to_delete policy second keep related
  /\ allowed_entities_to_delete policy
       (allowed_entities_to_delete policy first keep related) keep related
     = allowed_entities_to_delete policy first keep related.
Proof.
  rewrite !allowed_is_filter. split; [apply List.filter_app|].
  induction first as [|E rest IH]; simpl; [reflexivity|].
  destruct (guard_passes policy keep related E) eqn:HE; simpl;
    [rewrite HE; f_equal|]; exact IH.
Qed.

(** X10.  With an empty protect set and no related entity the deletion guard
    lets every candidate through, whatever the policy: when no write
    succeeded, everything the diff dropped is deleted. *)
Theorem nothing_protected_deletes_all (policy : bool)
    (candidates : list EntityRef.t) :
  allowed_entities_to_delete policy candidates [] [] = candidates.
Proof.
  rewrite allowed_is_filter.
  induction candidates as [|E rest IH]; simpl; [reflexivity | now rewrite IH].
Qed.

(** * Further properties of the Kafka ingestion loop *)

Section ConsumerCounts.

Import Kafka.

Context {Broker Payload : Type}.
Variable consumer_subscribe : list string -> Broker -> outcome unit * Broker.
Variable consumer_poll : Broker -> outcome (option Message) * Broker.
Variable consumer_commit : Broker -> outcome unit * Broker.
Variable consumer_close : Broker -> outcome unit * Broker.
Variable msg_process : Payload -> string -> Broker -> outcome unit * Broker.
Variable json_loads : string -> outcome Payload.
Variable org_id : option string.

Local Abbreviation handle_message' :=
  (@_handle_message Broker Payload msg_process json_loads).
Local Abbreviation turn' :=
  (turn consumer_poll consumer_commit consumer_close msg_process json_loads).
Local Abbreviation poll_loop' :=
  (poll_loop consumer_poll consumer_commit consumer_close msg_process
     json_loads).
Local Abbreviation start' :=
  (start consumer_subscribe consumer_poll consumer_commit consumer_close
     msg_process json_loads org_id).
Local Abbreviation Trace := (list (@Event Payload)).

Ltac step_through :=
  unfold turn, deliver, exit_gracefully, _handle_message, try_except,
    try_finally, bind, observe, emit, ret, raise, set_running, of_outcome,
    on_broker;
  repeat (simpl;
          match goal with
          | |- context [match ?x with _ => _ end] =>
              lazymatch x with
              | context [match _ with _ => _ end] => fail
              | _ => destruct x eqn:?
              end
          end);
  simpl;
  repeat match goal with u : unit |- _ => destruct u end.


Lemma count_app (f : @Event Payload -> bool) (t1 t2 : Trace) :
  count f (t1 ++ t2) = count f t1 + count f t2.
Proof. unfold count. now rewrite List.filter_app, length_app. Qed.

Lemma turn_commits (signal : option SignalPoint) (st : @State Broker) :
  count is_commit (calls_of (turn' signal st))
  <= count is_valid_poll (calls_of (turn' signal st))
  /\ (signal = None ->
      count is_commit (calls_of (turn' signal st))
      = count is_valid_poll (calls_of (turn' signal st))).
Proof.
  unfold calls_of, count.
  destruct signal as [[]|]; step_through;
    try congruence;
    (split; [repeat constructor | try discriminate; try reflexivity]).
Qed.

Lemma poll_loop_commits (schedule : list (option SignalPoint))
    (st : @State Broker) :
  count is_commit (calls_of (poll_loop' schedule st))
  <= count is_valid_poll (calls_of (poll_loop' schedule st))
  /\ (Forall (fun signal => signal = None) schedule ->
      count is_commit (calls_of (poll_loop' schedule st))
      = count is_valid_poll (calls_of (poll_loop' schedule st))).
Proof.
  revert st. induction schedule as [|signal rest IH]; intros st;
    destruct (running st) eqn:Hrun;
    try (rewrite poll_loop_not_running by exact Hrun; now split).
  - simpl. rewrite Hrun. now split.
  - rewrite poll_loop_step by exact Hrun. unfold calls_of at 1 3 5 7; simpl.
    rewrite !count_app.
    destruct (turn_commits signal st) as [Hle Heq].
    destruct (IH (world_of (turn' signal st))) as [Hle' Heq'].
    split; [now apply Nat.add_le_mono|].
    intros Hnone. inversion Hnone as [|? ? Hsignal Hrest]; subst.
    now rewrite Heq, Heq'.
Qed.

(** The trace of [start], spelled out. *)
Lemma start_calls (schedule : list (option SignalPoint)) (st : @State Broker) :
  calls_of (start' schedule st)
  = match consumer_subscribe (topics org_id) (broker st) with
    | (Returned u, b) =>
        let loop := poll_loop' schedule {| running := true; broker := b |} in
        Subscribe (topics org_id) (Returned u)
        :: calls_of loop
           ++ match result_of loop with
              | Returned StillRunning => []
              | _ => [Close (fst (consumer_close (broker (world_of loop))))]
              end
    | (Raised e, b) =>
        [Subscribe (topics org_id) (Raised e); Close (fst (consumer_close b))]
    end.
Proof.
  unfold start, bind, observe, set_running, on_broker.
  destruct (consumer_subscribe (topics org_id) (broker st))
    as [[u|e] b]; simpl.
  - destruct (poll_loop' schedule {| running := true; broker := b |})
      as [[[[|]|e] st'] t]; unfold calls_of, result_of, world_of; simpl;
      try (now rewrite app_nil_r);
      now destruct (consumer_close (broker st')) as [[[]|e'] b'].
  - now destruct (consumer_close b) as [[[]|e'] b'].
Qed.

(** X12.  The loop never commits more often than it polled a message without
    a broker error: a commit is issued only in a turn whose poll brought such
    a message. *)
Theorem commits_never_exceed_valid_polls
    (schedule : list (option SignalPoint)) (st : @State Broker) :
  count is_commit (calls_of (start' schedule st))
  <= count is_valid_poll (calls_of (start' schedule st)).
Proof.
  rewrite start_calls.
  destruct (consumer_subscribe (topics org_id) (broker st)) as [[u|e] b];
    [|repeat constructor].
  cbv zeta.
  change (?x :: ?l ++ ?k) with ([x] ++ l ++ k). rewrite !count_app.
  destruct (poll_loop_commits schedule {| running := true; broker := b |})
    as [Hle _].
  destruct (result_of _) as [[]|]; unfold count at 1 3 4 6; simpl; lia.
Qed.


(** X14.  [start] sets [running] itself before it enters the loop: what it
    calls and what it returns do not depend on the value [running] had when
    it was called, so a stop requested before [start] does not keep the loop
    from polling. *)
Theorem start_ignores_initial_running
    (schedule : list (option SignalPoint)) (b : Broker) (r1 r2 : bool) :
  calls_of (start' schedule {| running := r1; broker := b |})
  = calls_of (start' schedule {| running := r2; broker := b |})
  /\ result_of (start' schedule {| running := r1; broker := b |})
     = result_of (start' schedule {| running := r2; broker := b |})
  /\ broker (world_of (start' schedule {| running := r1; broker := b |}))
     = broker (world_of (start' schedule {| running := r2; broker := b |})).
Proof.
  unfold start, bind, observe, set_running, on_broker. simpl.
  destruct (consumer_subscribe (topics org_id) b) as [[u|e] b1]; simpl.
  - now repeat split.
  - now destruct (consumer_close b1) as [[[]|e'] b2].
Qed.

(** X15.  When the subscription raises, [start] polls nothing: it closes the
    consumer and raises, the error of the subscription or, if closing raises
    too, the error of the closing. *)
Theorem start_subscribe_failure (schedule : list (option SignalPoint))
    (st : @State Broker) (e : Exn) :
  fst (consumer_subscribe (topics org_id) (broker st)) = Raised e ->
  let b := snd (consumer_subscribe (topics org_id) (broker st)) in
  calls_of (start' schedule st)
  = [Subscribe (topics org_id) (Raised e); Close (fst (consumer_close b))]
  /\ result_of (start' schedule st)
     = Raised match fst (consumer_close b) with
              | Raised e' => e'
              | Returned _ => e
              end.
Proof.
  unfold start, bind, observe, set_running, on_broker.
  destruct (consumer_subscribe (topics org_id) (broker st)) as [r b1].
  simpl. intros ->. simpl.
  now destruct (consumer_close b1) as [[[]|e'] b2].
Qed.

(** ** After the handler ran *)

Lemma polls_after_exit_quiet (t rest : Trace) :
  existsb is_exit t = false ->
  polls_after_exit (t ++ rest) = polls_after_exit rest.
Proof.
  induction t as [|ev t IH]; [reflexivity|].
  simpl. destruct ev; simpl; try exact IH. discriminate.
Qed.

Lemma polls_after_exit_closed (t : Trace) (r : outcome unit) :
  polls_after_exit (t ++ [Close r]) = polls_after_exit t.
Proof.
  induction t as [|ev t IH]; [reflexivity|].
  destruct ev; simpl; try exact IH.
  rewrite count_app. unfold count at 2. simpl. apply Nat.add_0_r.
Qed.

Lemma turn_exit (signal : option SignalPoint) (st : @State Broker) :
  existsb is_exit (calls_of (turn' signal st)) = false
  /\ running (world_of (turn' signal st)) = running st
  \/ existsb is_exit (calls_of (turn' signal st)) = true
     /\ running (world_of (turn' signal st)) = false
     /\ polls_after_exit (calls_of (turn' signal st)) <= 1.
Proof.
  unfold calls_of, world_of.
  destruct signal as [[]|]; step_through;
    first [ left; split; reflexivity
          | right; repeat split; unfold count; simpl; repeat constructor ].
Qed.

Lemma poll_loop_polls_after_exit (schedule : list (option SignalPoint))
    (st : @State Broker) :
  polls_after_exit (calls_of (poll_loop' schedule st)) <= 1.
Proof.
  revert st. induction schedule as [|signal rest IH]; intros st;
    destruct (running st) eqn:Hrun;
    try (rewrite poll_loop_not_running by exact Hrun; repeat constructor).
  - simpl. rewrite Hrun. repeat constructor.
  - rewrite poll_loop_step by exact Hrun. unfold calls_of at 1; simpl.
    destruct (turn_exit signal st) as [[Hquiet _] | (_ & Hstop & Hle)].
    + rewrite polls_after_exit_quiet by exact Hquiet. apply IH.
    + rewrite poll_loop_not_running by exact Hstop.
      unfold calls_of at 2; simpl. now rewrite app_nil_r.
Qed.


End ConsumerCounts.

(** * The configuration of the consumer *)

(** X17.  Whatever the configuration, the dictionary handed to the Kafka
    consumer names the brokers and switches automatic commits off.  With
    security disabled it has these two keys and [group.id], set to
    [no-security], and nothing else: none of the credentials or SASL
    settings.  With security enabled the group is the user name. *)
Theorem kafka_config_shape (config : Kafka.KafkaConsumerConfig) :
  Kafka.kafka_config config !! "enable.auto.commit" = Some (Some "false")
  /\ Kafka.kafka_config config !! "bootstrap.servers"
     = Some (Some (Kafka.brokers config))
  /\ Kafka.kafka_config config !! "group.id"
     = Some (if Kafka.kafka_security_enabled config
             then Kafka.username config
             else Some "no-security")
  /\ dom (Kafka.kafka_config config)
     = (if Kafka.kafka_security_enabled config
        then {["bootstrap.servers"; "security.protocol"; "sasl.mechanism";
               "sasl.username"; "sasl.password"; "group.id";
               "enable.auto.commit"]}
        else {["bootstrap.servers"; "group.id"; "enable.auto.commit"]}
          : gset string).
Proof.
  unfold Kafka.kafka_config.
  destruct (Kafka.kafka_security_enabled config);
    (split; [reflexivity|]); (split; [reflexivity|]); (split; [reflexivity|]);
    rewrite dom_list_to_map_L; simpl; set_solver.
Qed.

(** * The further properties on the catalog and on the queue *)

Lemma applier_deletes_only_deleted_witness :
  In (EntityRef.mk "old" "service")
     (map EntityRef.from_entity
        (deleted
           (spec_get_port_diff
              [Catalog.service "old" false; Catalog.service "A" false]
              [Catalog.service "A" false; Catalog.service "B" true]))).
Proof.
  apply (proj1
           (applier_deletes_only_deleted Catalog.client
              (Catalog.config false false) Catalog.related_entity_refs
              Catalog.input_order Catalog.input_order spec_get_port_diff
              spec_get_port_ref_diff
              (mkEntityDiff
                 [Catalog.service "old" false; Catalog.service "A" false]
                 [Catalog.service "A" false; Catalog.service "B" true])
              (mkEntityRefDiff [] []) "exporter"
              [Catalog.service "old" false; Catalog.service "A" false]
              (fun l x H => H))).
  vm_compute. left. reflexivity.
Defined.

Lemma safe_delete_spares_keep_and_related_witness :
  let X := EntityRef.mk "X" "service" in
  let Y := EntityRef.mk "Y" "service" in
  let Z := EntityRef.mk "Z" "service" in
  In Z [X; Z]
  /\ is_part_of_created [Y] Z = false
  /\ is_part_of_related [X] Z = false.
Proof.
  cbv zeta.
  apply (safe_delete_spares_keep_and_related Catalog.client
           (Catalog.config true false) Catalog.related_entity_refs
           Catalog.input_order
           [EntityRef.mk "X" "service"; EntityRef.mk "Z" "service"]
           [EntityRef.mk "Y" "service"] [EntityRef.mk "X" "service"]
           "exporter"
           [Entity.mk "Y" "service" [("service", ["X"])] [] false]
           [Entity.mk "Y" "service" [("service", ["X"])] [] false]
           (EntityRef.mk "Z" "service")).
  - reflexivity.
  - intros l x H. exact H.
  - reflexivity.
  - vm_compute. left. reflexivity.
Defined.

Lemma empty_input_calls_witness :
  calls_of (upsert Catalog.client (Catalog.config true true)
              Catalog.input_order [] "exporter" [])
  = [CallBatchUpsertEntities [] tt "exporter" false]
  /\ calls_of (delete Catalog.client (Catalog.config true true)
                 Catalog.input_order [] "exporter" [])
     = [CallBatchDeleteEntities [] tt "exporter" false].
Proof.
  apply (empty_input_calls Catalog.client (Catalog.config true true)
           Catalog.input_order Catalog.input_order "exporter" []).
  - intros l x H. exact H.
  - intros l x H. exact H.
Defined.

Lemma safe_delete_cascade_calls_witness :
  let Y := EntityRef.mk "Y" "service" in
  calls_of
    (_safe_delete Catalog.client (Catalog.config true true)
       Catalog.related_entity_refs Catalog.input_order [Y] [Y] "exporter"
       [Catalog.service "Y" false])
  = [CallGetRelatedEntitiesRefs [Y];
     CallBatchDeleteEntities [] tt "exporter" false].
Proof.
  cbv zeta.
  rewrite (safe_delete_cascade_calls Catalog.client
             (Catalog.config true true) Catalog.related_entity_refs
             Catalog.input_order [EntityRef.mk "Y" "service"]
             [EntityRef.mk "Y" "service"] [] "exporter"
             [Catalog.service "Y" false] [Catalog.service "Y" false]).
  - reflexivity.
  - reflexivity.
  - discriminate.
  - reflexivity.
Defined.

Lemma upsert_writes_each_entity_once_witness :
  let entities := [Catalog.service "S" true; Catalog.service "" false;
                   Catalog.service "N" false] in
  Permutation
    (upserted_one_by_one
       (calls_of (upsert Catalog.client (Catalog.config false false)
                    Catalog.input_order entities "exporter" [])))
    entities.
Proof.
  cbv zeta.
  apply (upsert_writes_each_entity_once Catalog.client
           (Catalog.config false false) Catalog.input_order
           [Catalog.service "S" true; Catalog.service "" false;
            Catalog.service "N" false] "exporter" []).
  - reflexivity.
  - intros l. apply Permutation_refl.
  - intros e w. unfold upsert_entity. simpl. unfold Catalog.upsert_one.
    destruct (Catalog.accepts e); simpl; eauto.
Defined.


Lemma start_subscribe_failure_witness :
  calls_of
    (Kafka.start (fun _ q => (Raised "no broker", q)) Kafka.queue_poll
       Kafka.queue_commit Kafka.queue_close Kafka.demo_process
       Kafka.demo_loads (Some "org") [None; None]
       (Kafka.mkState false (Kafka.mkQueue [] [] [] false)))
  = [Kafka.Subscribe ["org.runs"; "org.change.log"] (Raised "no broker");
     Kafka.Close (Returned tt)].
Proof.
  apply (start_subscribe_failure (fun _ q => (Raised "no broker", q))
           Kafka.queue_poll Kafka.queue_commit Kafka.queue_close
           Kafka.demo_process Kafka.demo_loads (Some "org") [None; None]
           (Kafka.mkState false (Kafka.mkQueue [] [] [] false)) "no broker").
  reflexivity.
Defined.
